(** * Centering of size factors

    A shallow embedding of [include/scran/center_size_factors.hpp]
    (namespace [scran::center_size_factors]) and the properties of its four
    entry points [compute_mean], [compute], [compute_blocked_mean] and
    [compute_blocked].

    The template parameter [SizeFactor_] is instantiated at IEEE 754
    binary64 ([double]), given by the executable specification of
    [Stdlib.Floats.SpecFloat]; [Block_] is instantiated at the non-negative
    integers.  Arrays passed as pointer + length are lists, whose length is
    the [num] argument; the [block] array has [num] entries as well.  The
    [size_t] counters never exceed [num], so they are natural numbers. *)

From Stdlib Require Import ZArith Lia Bool List.
From Stdlib Require Import Floats.SpecFloat.
From stdpp Require Import base option list.

(** ** IEEE 754 binary64 *)

Module Double.

Definition prec : Z := 53.
Definition emax : Z := 1024.

Definition double : Type := spec_float.

(** The literal [0] converted to [SizeFactor_]. *)
Definition zero : double := S754_zero false.
Definition nan : double := S754_nan.

(** [x + y] and [x / y], rounded to nearest, ties to even. *)
Definition add (x y : double) : double := SFadd prec emax x y.
Definition div (x y : double) : double := SFdiv prec emax x y.

(** [x < y] and [x == y]; both are false as soon as one side is a NaN. *)
Definition ltb (x y : double) : bool := SFltb x y.
Definition eqb (x y : double) : bool := SFeqb x y.

(** Conversion of an integer to [double], as in [mean / denom] where
    [denom] is a [size_t]. *)
Definition of_Z (z : Z) : double := binary_normalize prec emax z 0 false.
Definition of_size (n : nat) : double := of_Z (Z.of_nat n).

(** Contextual conversion to [bool], as in [if (mean)]: a zero of either
    sign is false, everything else (a NaN included) is true. *)
Definition to_bool (x : double) : bool := negb (eqb x zero).

(** [x] is [+0.0] or [-0.0]. *)
Definition is_zero (x : double) : bool :=
  match x with S754_zero _ => true | _ => false end.

(** [x > 0]. *)
Definition is_pos (x : double) : bool := ltb zero x.

End Double.
Import Double.

#[global] Instance double_inhabited : Inhabited double := populate zero.

(** ** Control structures and library functions used by the source *)

(** [for (size_t i = 0; i < n; ++i) body] acting on the state [s]. *)
Definition for_range {St : Type} (n : nat) (body : nat → St → St) (s : St) : St :=
  fold_left (λ s i, body i s) (seq 0 n) s.

(** [std::accumulate(first, first + num, init)]. *)
Definition accumulate (xs : list double) (init : double) : double :=
  fold_left add xs init.

(** Conversion of a [size_t] to [bool], as in [if (denom)]. *)
Definition size_to_bool (n : nat) : bool := negb (Nat.eqb n 0).

(** [tatami_stats::total_groups(block, num)], from the tatami_stats library
    that the header includes: one more than the largest of the first [num]
    labels, and zero when [num] is zero. *)
Definition total_groups (block : list nat) (num : nat) : nat :=
  if size_to_bool num then S (max_list (take num block)) else 0.

(** ** Options *)

Inductive BlockMode : Set := PER_BLOCK | LOWEST.

Record Options : Set := {
  block_mode : BlockMode;
  ignore_invalid : bool
}.

(** The default member initialisers of [struct Options]. *)
Definition default_options : Options :=
  {| block_mode := LOWEST; ignore_invalid := true |}.

(** ** The four entry points

    [sanitize_size_factors::Diagnostics] and
    [sanitize_size_factors::internal::is_invalid] come from another header;
    the functions are parametric in them.  [tmpdiag] is a
    default-constructed [Diagnostics]; [is_invalid val diag] returns the
    verdict together with the updated sink.  A [diagnostics] pointer is an
    [option]: [None] is [NULL]; each function returns the state of the
    caller's sink after the call. *)

Section center_size_factors.

Context {Diagnostics : Type}.
Variable tmpdiag : Diagnostics.
Variable is_invalid : double → Diagnostics → bool * Diagnostics.

Definition compute_mean (size_factors : list double)
    (diagnostics : option Diagnostics) (options : Options)
    : double * option Diagnostics :=
  let num := length size_factors in
  let '(mean, denom, diagnostics) :=
    if ignore_invalid options then
      let diag := default tmpdiag diagnostics in
      let '(mean, denom, diag) :=
        for_range num (λ i '(mean, denom, diag),
          let val := size_factors !!! i in
          let '(invalid, diag) := is_invalid val diag in
          if negb invalid
          then (add mean val, S denom, diag)
          else (mean, denom, diag))
        (zero, 0, diag) in
      (mean, denom, (λ _, diag) <$> diagnostics)
    else
      (accumulate size_factors zero, num, diagnostics) in
  if size_to_bool denom
  then (div mean (of_size denom), diagnostics)
  else (zero, diagnostics).

Definition compute (size_factors : list double)
    (diagnostics : option Diagnostics) (options : Options)
    : double * list double * option Diagnostics :=
  let num := length size_factors in
  let '(mean, diagnostics) := compute_mean size_factors diagnostics options in
  let size_factors :=
    if to_bool mean
    then for_range num (λ i size_factors,
           alter (λ x, div x mean) i size_factors) size_factors
    else size_factors in
  (mean, size_factors, diagnostics).

Definition compute_blocked_mean (size_factors : list double)
    (block : list nat) (diagnostics : option Diagnostics) (options : Options)
    : list double * option Diagnostics :=
  let num := length size_factors in
  let ngroups := total_groups block num in
  let group_mean := replicate ngroups zero in
  let group_num := replicate ngroups 0 in
  let '(group_mean, group_num, diagnostics) :=
    if ignore_invalid options then
      let diag := default tmpdiag diagnostics in
      let '(group_mean, group_num, diag) :=
        for_range num (λ i '(group_mean, group_num, diag),
          let val := size_factors !!! i in
          let '(invalid, diag) := is_invalid val diag in
          if negb invalid
          then
            let b := block !!! i in
            (alter (λ m, add m val) b group_mean, alter S b group_num, diag)
          else (group_mean, group_num, diag))
        (group_mean, group_num, diag) in
      (group_mean, group_num, (λ _, diag) <$> diagnostics)
    else
      let '(group_mean, group_num) :=
        for_range num (λ i '(group_mean, group_num),
          let b := block !!! i in
          (alter (λ m, add m (size_factors !!! i)) b group_mean,
           alter S b group_num))
        (group_mean, group_num) in
      (group_mean, group_num, diagnostics) in
  let group_mean :=
    for_range ngroups (λ g group_mean,
      if size_to_bool (group_num !!! g)
      then alter (λ m, div m (of_size (group_num !!! g))) g group_mean
      else group_mean)
    group_mean in
  (group_mean, diagnostics).

Definition compute_blocked (size_factors : list double)
    (block : list nat) (diagnostics : option Diagnostics) (options : Options)
    : list double * list double * option Diagnostics :=
  let num := length size_factors in
  let '(group_mean, diagnostics) :=
    compute_blocked_mean size_factors block diagnostics options in
  let size_factors :=
    match block_mode options with
    | PER_BLOCK =>
        for_range num (λ i size_factors,
          let div_ := group_mean !!! (block !!! i) in
          if to_bool div_
          then alter (λ x, div x div_) i size_factors
          else size_factors)
        size_factors
    | LOWEST =>
        let '(min, found) :=
          fold_left (λ '(min, found) m,
            if to_bool m
            then if negb found || ltb m min then (m, true) else (min, found)
            else (min, found))
          group_mean (zero, false) in
        if ltb zero min
        then for_range num (λ i size_factors,
               alter (λ x, div x min) i size_factors) size_factors
        else size_factors
    end in
  (group_mean, size_factors, diagnostics).

End center_size_factors.

(** ** The invalid-value classifier *)

(** Modelled from the spec: [sanitize_size_factors::Diagnostics] and
    [sanitize_size_factors::internal::is_invalid] live in
    [sanitize_size_factors.hpp], which is not among the sources.  The spec
    describes the sink as a record of flags for the kinds of invalid value
    seen (zero, negative, NaN, infinite) and the classifier as
    [is_invalid(value, diagnostics) -> bool], true for a non-positive, NaN or
    infinite value, marking the matching flag as a side effect.  A negative
    infinity is filed under "negative". *)
Module sanitize_size_factors.

Record Diagnostics : Set := {
  has_negative : bool;
  has_zero : bool;
  has_nan : bool;
  has_infinite : bool
}.

(** A default-constructed sink: nothing seen yet. *)
Definition fresh : Diagnostics :=
  {| has_negative := false; has_zero := false;
     has_nan := false; has_infinite := false |}.

Definition is_invalid (sf : double) (output : Diagnostics)
    : bool * Diagnostics :=
  if ltb sf zero then
    (true, {| has_negative := true; has_zero := has_zero output;
              has_nan := has_nan output; has_infinite := has_infinite output |})
  else if eqb sf zero then
    (true, {| has_negative := has_negative output; has_zero := true;
              has_nan := has_nan output; has_infinite := has_infinite output |})
  else match sf with
  | S754_nan =>
    (true, {| has_negative := has_negative output; has_zero := has_zero output;
              has_nan := true; has_infinite := has_infinite output |})
  | S754_infinity _ =>
    (true, {| has_negative := has_negative output; has_zero := has_zero output;
              has_nan := has_nan output; has_infinite := true |})
  | _ => (false, output)
  end.

End sanitize_size_factors.

(** ** Vocabulary of the specification

    The definitions below follow the words of the specification, not the
    code: they say which values contribute to a mean, what the mean of the
    contributing values is, which entries belong to a block and what the
    minimum strictly-positive mean is.  [map_from] is the one exception; it
    names the result of an in-place loop. *)

(** The elements of [xs] whose flag in [mask] is set. *)
Fixpoint keep {A : Type} (mask : list bool) (xs : list A) : list A :=
  match mask, xs with
  | m :: mask', x :: xs' => if m then x :: keep mask' xs' else keep mask' xs'
  | _, _ => []
  end.

(** The subsequence of [xs] whose entries belong to block [b]. *)
Fixpoint block_entries {A : Type} (b : nat) (block : list nat) (xs : list A)
    : list A :=
  match block, xs with
  | c :: block', x :: xs' =>
      if Nat.eqb c b
      then x :: block_entries b block' xs'
      else block_entries b block' xs'
  | _, _ => []
  end.

(** [xs] with the element at each position [k + i] replaced by its image
    under [h (k + i)]: what a loop that rewrites the array in place, index
    by index, leaves behind. *)
Fixpoint map_from {A : Type} (h : nat → A → A) (k : nat) (xs : list A) : list A :=
  match xs with
  | [] => []
  | x :: xs' => h k x :: map_from h (S k) xs'
  end.

(** Sum divided by count, and zero when there is nothing to average. *)
Definition mean_of (vals : list double) : double :=
  match vals with
  | [] => zero
  | _ :: _ => div (accumulate vals zero) (of_size (length vals))
  end.

(** The smaller of two numbers, the first one on a tie. *)
Definition fmin (mn m : double) : double := if ltb m mn then m else mn.

(** The minimum of the strictly positive entries of [means], if any. *)
Definition min_positive_mean (means : list double) : option double :=
  match List.filter is_pos means with
  | [] => None
  | p :: ps => Some (fold_left fmin ps p)
  end.

(** [mn] is a strictly positive entry of [means] that no strictly positive
    entry is smaller than. *)
Definition is_min_positive (means : list double) (mn : double) : Prop :=
  In mn means ∧ is_pos mn = true ∧
  ∀ m, In m means → is_pos m = true → ltb m mn = false.

Section classification.

Context {Diagnostics : Type}.
Variable tmpdiag : Diagnostics.
Variable is_invalid : double → Diagnostics → bool * Diagnostics.

(** The verdicts of the classifier on the values of [vals], taken in
    order from the sink [diag]. *)
Fixpoint verdicts (diag : Diagnostics) (vals : list double) : list bool :=
  match vals with
  | [] => []
  | v :: vals' => (is_invalid v diag).1 :: verdicts (is_invalid v diag).2 vals'
  end.

(** The sink after all of [vals] have been classified. *)
Fixpoint sink_after (diag : Diagnostics) (vals : list double) : Diagnostics :=
  match vals with
  | [] => diag
  | v :: vals' => sink_after (is_invalid v diag).2 vals'
  end.

(** Which values are included in a mean: all of them when
    [ignore_invalid] is unset, those the classifier accepts otherwise. *)
Definition included (options : Options) (diagnostics : option Diagnostics)
    (vals : list double) : list bool :=
  if ignore_invalid options
  then negb <$> verdicts (default tmpdiag diagnostics) vals
  else (λ _, true) <$> vals.

(** The values that contribute to the global mean. *)
Definition contributing (options : Options) (diagnostics : option Diagnostics)
    (vals : list double) : list double :=
  keep (included options diagnostics vals) vals.

(** The values that contribute to the mean of block [b]. *)
Definition block_contributing (options : Options)
    (diagnostics : option Diagnostics) (b : nat) (block : list nat)
    (vals : list double) : list double :=
  keep (block_entries b block (included options diagnostics vals))
       (block_entries b block vals).

(** The verdict of the classifier does not depend on the sink. *)
Definition verdict_pure : Prop :=
  ∀ v d d', (is_invalid v d).1 = (is_invalid v d').1.

End classification.

(** What the specification says of the [LOWEST] strategy, for the means
    [means] and the array before ([vals]) and after ([vals']) the call: with
    a strictly positive mean every value is divided by the minimum such
    mean; without one the array is left as it was. *)
Definition lowest_rescaling (means vals vals' : list double) : Prop :=
  ((∃ m, In m means ∧ is_pos m = true) →
   ∃ mn, is_min_positive means mn ∧ vals' = map (λ x, div x mn) vals) ∧
  ((∀ m, In m means → is_pos m = false) → vals' = vals).

(** The classifier accepts only strictly positive finite numbers. *)
Definition accepts_positive_finite {Diagnostics : Type}
    (is_invalid : double → Diagnostics → bool * Diagnostics) : Prop :=
  ∀ v d, (is_invalid v d).1 = false → ∃ m e, v = S754_finite false m e.

(** ** Literals

    The binary64 numbers written in the examples, as mantissa and
    exponent. *)
Module Lit.
Definition half : double := S754_finite false 4503599627370496 (-53).
Definition one : double := S754_finite false 4503599627370496 (-52).
Definition one_and_half : double := S754_finite false 6755399441055744 (-52).
Definition two : double := S754_finite false 4503599627370496 (-51).
Definition three : double := S754_finite false 6755399441055744 (-51).
Definition minus_half : double := S754_finite true 4503599627370496 (-53).
Definition minus_one : double := S754_finite true 4503599627370496 (-52).
End Lit.

(** The number of binary digits of the mantissa of a shift record, used to
    follow the rounding of [of_size]. *)
Definition shr_digits (mrs : shr_record) : Z :=
  match shr_m mrs with
  | Zpos p => Zpos (digits2_pos p)
  | _ => 0%Z
  end.

(** * Properties *)

(** ** Index loops as list traversals *)

Section loops.

Context {St A : Type}.

Lemma fold_seq_read (rd : nat → A) (body : nat → St → St) (f : St → A → St) :
  (∀ i s, body i s = f s (rd i)) →
  ∀ (l : list A) (k : nat) (s : St),
    (∀ i, i < length l → l !! i = Some (rd (k + i))) →
    fold_left (λ s i, body i s) (seq k (length l)) s = fold_left f l s.
Proof.
  intros Hbody l. induction l as [|x l IH]; intros k s Hl; [reflexivity|].
  cbn [length seq fold_left].
  assert (Hx : rd k = x).
  { specialize (Hl 0 ltac:(cbn; lia)). rewrite Nat.add_0_r in Hl.
    cbn in Hl. congruence. }
  rewrite Hbody, Hx. apply IH. intros i Hi.
  specialize (Hl (S i) ltac:(cbn; lia)).
  replace (S k + i) with (k + S i) by lia. exact Hl.
Qed.

(** A loop that reads [l] at the running index is a left fold over [l]. *)
Lemma for_range_fold (rd : nat → A) (body : nat → St → St) (f : St → A → St)
    (l : list A) (s : St) :
  (∀ i s, body i s = f s (rd i)) →
  (∀ i, i < length l → l !! i = Some (rd i)) →
  for_range (length l) body s = fold_left f l s.
Proof.
  intros Hbody Hl. unfold for_range.
  apply (fold_seq_read rd); [exact Hbody|]. intros i Hi. now apply Hl.
Qed.

End loops.

Section updates.

Context {A : Type}.

Lemma fold_seq_alter (h : nat → A → A) (body : nat → list A → list A) :
  (∀ i a, body i a = alter (h i) i a) →
  ∀ (l pre : list A),
    fold_left (λ a i, body i a) (seq (length pre) (length l)) (pre ++ l)
    = pre ++ map_from h (length pre) l.
Proof.
  intros Hbody l. induction l as [|x l IH]; intros pre; [reflexivity|].
  cbn [length seq fold_left map_from].
  rewrite Hbody.
  assert (Halt : alter (h (length pre)) (length pre) (pre ++ x :: l)
                 = pre ++ h (length pre) x :: l).
  { rewrite alter_app_r_alt by lia. now rewrite Nat.sub_diag. }
  rewrite Halt.
  specialize (IH (pre ++ [h (length pre) x])).
  rewrite length_app in IH. cbn [length] in IH.
  rewrite Nat.add_1_r, <- !app_assoc in IH. exact IH.
Qed.

(** A loop that updates the element at the running index, and nothing
    else, rewrites the array position by position. *)
Lemma for_range_alter (h : nat → A → A) (body : nat → list A → list A)
    (l : list A) :
  (∀ i a, body i a = alter (h i) i a) →
  for_range (length l) body l = map_from h 0 l.
Proof.
  intros Hbody. unfold for_range.
  apply (fold_seq_alter h body Hbody l []).
Qed.

Lemma map_from_const (g : A → A) (k : nat) (l : list A) :
  map_from (λ _, g) k l = map g l.
Proof. revert k. induction l as [|x l IH]; intros k; cbn; [|rewrite IH]; reflexivity. Qed.

Lemma length_map_from (h : nat → A → A) (k : nat) (l : list A) :
  length (map_from h k l) = length l.
Proof. revert k. induction l as [|x l IH]; intros k; cbn; [|rewrite IH]; reflexivity. Qed.

Lemma lookup_map_from (h : nat → A → A) (l : list A) (k i : nat) :
  map_from h k l !! i = h (k + i) <$> l !! i.
Proof.
  revert k i. induction l as [|x l IH]; intros k [|i]; cbn; try reflexivity.
  - now rewrite Nat.add_0_r.
  - rewrite IH. do 2 f_equal. lia.
Qed.

(** Dividing every element in a loop is a [map]. *)
Lemma for_range_alter_all (g : A → A) (l : list A) :
  for_range (length l) (λ i a, alter g i a) l = map g l.
Proof.
  rewrite (for_range_alter (λ _, g)); [apply map_from_const|reflexivity].
Qed.

End updates.

(** ** Facts of binary64 arithmetic *)

Section arithmetic.

Lemma shr_1_digits (mrs : shr_record) :
  (2 ≤ shr_digits mrs)%Z → shr_digits (shr_1 mrs) = (shr_digits mrs - 1)%Z.
Proof.
  destruct mrs as [[|p|p] r s]; unfold shr_digits; cbn; try lia.
  destruct p; cbn; lia.
Qed.

Lemma iter_shr_1_digits (n : positive) :
  ∀ mrs, (Zpos n < shr_digits mrs)%Z →
    shr_digits (SpecFloat.iter_pos shr_1 n mrs) = (shr_digits mrs - Zpos n)%Z.
Proof.
  induction n as [n IH|n IH|]; intros mrs Hn; cbn [SpecFloat.iter_pos].
  - assert (H1 := shr_1_digits mrs ltac:(lia)).
    assert (H2 := IH (shr_1 mrs) ltac:(lia)).
    rewrite IH; lia.
  - assert (H2 := IH mrs ltac:(lia)).
    rewrite IH; lia.
  - apply shr_1_digits. lia.
Qed.

(** Shifting by fewer places than there are digits leaves a positive
    mantissa. *)
Lemma shr_digits_pos (mrs : shr_record) (e n : Z) :
  (0 < shr_digits mrs)%Z → (n < shr_digits mrs)%Z →
  (0 < shr_digits (shr mrs e n).1)%Z ∧
  (shr_digits (shr mrs e n).1 = shr_digits mrs - Z.max n 0)%Z ∧
  (shr mrs e n).2 = (e + Z.max n 0)%Z.
Proof.
  intros Hpos Hn. destruct n as [|n|n]; cbn [shr fst snd].
  - repeat split; lia.
  - rewrite iter_shr_1_digits by lia. repeat split; lia.
  - repeat split; lia.
Qed.

Lemma binary_round_aux_pos (m : positive) (e : Z) :
  (emin prec emax ≤ e)%Z →
  (emin prec emax ≤ Zpos (digits2_pos m) + e - prec)%Z →
  is_pos (binary_round_aux prec emax false (Zpos m) e loc_Exact) = true.
Proof.
  intros He Hd. unfold binary_round_aux.
  destruct (shr_fexp prec emax (Zpos m) e loc_Exact) as [mrs' e'] eqn:E1.
  unfold shr_fexp in E1. cbn [shr_record_of_loc Zdigits2] in E1.
  set (r0 := {| shr_m := Zpos m; shr_r := false; shr_s := false |}) in E1.
  assert (D0 : shr_digits r0 = Zpos (digits2_pos m)) by reflexivity.
  assert (F1 : fexp prec emax (Zpos (digits2_pos m) + e)
               = (Zpos (digits2_pos m) + e - prec)%Z) by (unfold fexp; lia).
  rewrite F1 in E1.
  destruct (shr_digits_pos r0 e (Zpos (digits2_pos m) + e - prec - e))
    as (P1 & Q1 & R1); [lia|unfold prec; lia|].
  rewrite E1 in P1, Q1, R1. cbn [fst snd] in P1, Q1, R1.
  set (q := round_nearest_even (shr_m mrs') (loc_of_shr_record mrs')).
  assert (Hq : ∃ q', q = Zpos q').
  { unfold shr_digits in P1. destruct (shr_m mrs') as [|p|p] eqn:Em; try lia.
    subst q. try rewrite Em. unfold round_nearest_even.
    destruct (loc_of_shr_record mrs') as [|[| |]]; eauto.
    destruct (Z.even (Zpos p)); eauto. }
  destruct Hq as [q' Hq]. rewrite Hq.
  destruct (shr_fexp prec emax (Zpos q') e' loc_Exact) as [mrs'' e''] eqn:E2.
  unfold shr_fexp in E2. cbn [shr_record_of_loc Zdigits2] in E2.
  set (r1 := {| shr_m := Zpos q'; shr_r := false; shr_s := false |}) in E2.
  assert (D1 : shr_digits r1 = Zpos (digits2_pos q')) by reflexivity.
  destruct (shr_digits_pos r1 e' (fexp prec emax (Zpos (digits2_pos q') + e') - e'))
    as (P2 & _ & _);
    [rewrite D1; lia | rewrite D1; unfold fexp; change prec with 53%Z in *; lia |].
  rewrite E2 in P2. cbn [fst] in P2.
  unfold shr_digits in P2. destruct (shr_m mrs'') as [|p|p]; try lia.
  destruct (e'' <=? emax - prec)%Z; reflexivity.
Qed.

Lemma digits2_pos_iter_xO (k p : positive) :
  Zpos (digits2_pos (Pos.iter xO p k)) = (Zpos (digits2_pos p) + Zpos k)%Z.
Proof.
  revert p. induction k using Pos.peano_ind; intros p.
  - cbn. lia.
  - rewrite Pos.iter_succ. cbn [digits2_pos]. rewrite Pos2Z.inj_succ, IHk. lia.
Qed.

(** The conversion of a positive count is a positive number. *)
Lemma of_size_pos (n : nat) : is_pos (of_size (S n)) = true.
Proof.
  unfold of_size, of_Z. rewrite Nat2Z.inj_succ, <- Z.add_1_r.
  destruct (Z.of_nat n + 1)%Z as [|p|p] eqn:E; try lia.
  cbn [binary_normalize]. unfold binary_round, shl_align.
  assert (F : fexp prec emax (Zpos (digits2_pos p) + 0)
              = (Zpos (digits2_pos p) - prec)%Z) by (unfold fexp, emin, prec, emax; lia).
  rewrite F.
  destruct (Zpos (digits2_pos p) - prec - 0)%Z as [|d|d] eqn:Ed.
  - apply binary_round_aux_pos; unfold emin, prec, emax in *; lia.
  - apply binary_round_aux_pos; unfold emin, prec, emax in *; lia.
  - apply binary_round_aux_pos.
    + unfold emin, prec, emax in *; lia.
    + rewrite digits2_pos_iter_xO. unfold emin, prec, emax in *. lia.
Qed.


Lemma is_pos_shape (x : double) :
  is_pos x = true →
  x = S754_infinity false ∨ ∃ m e, x = S754_finite false m e.
Proof. destruct x as [s|[|]| |[|] m e]; cbn; try discriminate; eauto. Qed.

Lemma to_bool_is_zero (x : double) : to_bool x = negb (is_zero x).
Proof. destruct x as [s|[|]| |[|] m e]; reflexivity. Qed.

Lemma is_pos_to_bool (x : double) : is_pos x = true → to_bool x = true.
Proof. destruct x as [s|[|]| |[|] m e]; intros H; try discriminate H; reflexivity. Qed.

Lemma is_pos_zero (x : double) : is_zero x = true → is_pos x = false.
Proof. destruct x as [s|[|]| |[|] m e]; intros H; try discriminate H; reflexivity. Qed.

Lemma div_zero_pos (y : double) : is_pos y = true → div zero y = zero.
Proof. intros [->|(m & e & ->)]%is_pos_shape; reflexivity. Qed.

Lemma add_zero_zero (z : double) : is_zero z = true → add zero z = zero.
Proof. destruct z as [[|]|[|]| |[|] m e]; intros H; try discriminate H; reflexivity. Qed.

Lemma accumulate_zeros (l : list double) :
  forallb is_zero l = true → accumulate l zero = zero.
Proof.
  unfold accumulate. induction l as [|z l IH]; cbn [forallb fold_left]; [reflexivity|].
  intros [Hz Hl]%andb_prop. rewrite add_zero_zero by exact Hz. now apply IH.
Qed.

(** The mean of zeros is zero. *)
Lemma mean_of_zeros (l : list double) :
  forallb is_zero l = true → mean_of l = zero.
Proof.
  intros Hl. destruct l as [|z l]; [reflexivity|].
  unfold mean_of. rewrite accumulate_zeros by exact Hl.
  apply div_zero_pos. cbn [length]. apply of_size_pos.
Qed.

(** On strictly positive numbers [ltb] is a strict total order. *)
Ltac order_cases :=
  unfold ltb, SFltb, SFcompare;
  repeat match goal with
  | |- context [Z.compare ?a ?b] => destruct (Z.compare_spec a b)
  | |- context [Pos.compare_cont Eq ?a ?b] =>
      change (Pos.compare_cont Eq a b) with (Pos.compare a b);
      destruct (Pos.compare_spec a b)
  | H : context [Z.compare ?a ?b] |- _ => destruct (Z.compare_spec a b)
  | H : context [Pos.compare_cont Eq ?a ?b] |- _ =>
      change (Pos.compare_cont Eq a b) with (Pos.compare a b) in H;
      destruct (Pos.compare_spec a b)
  end;
  try reflexivity; try discriminate; try lia.

Lemma ltb_pos_irrefl (x : double) : is_pos x = true → ltb x x = false.
Proof. intros [->|(m & e & ->)]%is_pos_shape; order_cases. Qed.

Lemma ltb_pos_asym (x y : double) :
  is_pos x = true → is_pos y = true → ltb x y = true → ltb y x = false.
Proof.
  intros [->|(m & e & ->)]%is_pos_shape [->|(m' & e' & ->)]%is_pos_shape;
    order_cases.
Qed.

Lemma leb_pos_trans (x y z : double) :
  is_pos x = true → is_pos y = true → is_pos z = true →
  ltb y x = false → ltb z y = false → ltb z x = false.
Proof.
  intros [->|(m & e & ->)]%is_pos_shape [->|(m' & e' & ->)]%is_pos_shape
         [->|(m'' & e'' & ->)]%is_pos_shape; order_cases.
Qed.

Lemma fmin_pos (mn m : double) :
  is_pos mn = true → is_pos m = true → is_pos (fmin mn m) = true.
Proof. intros ??. unfold fmin. now destruct (ltb m mn). Qed.

Lemma fmin_le_l (mn m : double) :
  is_pos mn = true → is_pos m = true → ltb mn (fmin mn m) = false.
Proof.
  intros ??. unfold fmin. destruct (ltb m mn) eqn:E.
  - now apply ltb_pos_asym.
  - now apply ltb_pos_irrefl.
Qed.

Lemma fmin_le_r (mn m : double) :
  is_pos mn = true → is_pos m = true → ltb m (fmin mn m) = false.
Proof.
  intros ??. unfold fmin. destruct (ltb m mn) eqn:E.
  - now apply ltb_pos_irrefl.
  - exact E.
Qed.

Lemma fold_fmin_In (ps : list double) (p : double) :
  In (fold_left fmin ps p) (p :: ps).
Proof.
  revert p. induction ps as [|m ps IH]; intros p; cbn [fold_left].
  - now left.
  - destruct (IH (fmin p m)) as [H|H].
    + rewrite <- H. unfold fmin. destruct (ltb m p); cbn; auto.
    + right. now right.
Qed.

Lemma fold_fmin_pos (ps : list double) (p : double) :
  is_pos p = true → (∀ m, In m ps → is_pos m = true) →
  is_pos (fold_left fmin ps p) = true.
Proof.
  intros Hp Hps. destruct (fold_fmin_In ps p) as [<-|H]; auto.
Qed.

Lemma fold_fmin_lower (ps : list double) :
  ∀ p, is_pos p = true → (∀ m, In m ps → is_pos m = true) →
    ∀ m, In m (p :: ps) → ltb m (fold_left fmin ps p) = false.
Proof.
  induction ps as [|m' ps IH]; intros p Hp Hps m Hm; cbn [fold_left].
  - destruct Hm as [<-|[]]. now apply ltb_pos_irrefl.
  - assert (Hm' : is_pos m' = true) by (apply Hps; now left).
    assert (Hps' : ∀ m, In m ps → is_pos m = true)
      by (intros; apply Hps; now right).
    assert (Hf : is_pos (fmin p m') = true) by now apply fmin_pos.
    assert (Hr : is_pos (fold_left fmin ps (fmin p m')) = true)
      by now apply fold_fmin_pos.
    assert (Hacc : ltb (fmin p m') (fold_left fmin ps (fmin p m')) = false)
      by (apply IH; auto; now left).
    destruct Hm as [<-|[<-|Hm]].
    + apply (leb_pos_trans _ (fmin p m')); auto. now apply fmin_le_l.
    + apply (leb_pos_trans _ (fmin p m')); auto. now apply fmin_le_r.
    + apply IH; auto. now right.
Qed.

End arithmetic.

(** ** Masks and block subsequences *)

Section masks.

Context {A : Type}.

Lemma keep_all (xs : list A) : keep ((λ _, true) <$> xs) xs = xs.
Proof. induction xs as [|x xs IH]; cbn; [|rewrite IH]; reflexivity. Qed.

Lemma keep_forallb (p : A → bool) (mask : list bool) (xs : list A) :
  forallb p xs = true → forallb p (keep mask xs) = true.
Proof.
  revert mask. induction xs as [|x xs IH]; intros [|[|] mask]; cbn; auto.
  - intros [-> H]%andb_prop. cbn. now apply IH.
  - intros [_ H]%andb_prop. now apply IH.
Qed.

Lemma block_entries_fmap {B : Type} (g : A → B) (b : nat) (block : list nat)
    (xs : list A) :
  block_entries b block (g <$> xs) = g <$> block_entries b block xs.
Proof.
  revert xs. induction block as [|c block IH]; intros [|x xs]; cbn; try reflexivity.
  destruct (Nat.eqb c b); cbn; now rewrite IH.
Qed.

Lemma block_entries_all (b : nat) (block : list nat) (xs : list A) :
  block_entries b block ((λ _, true) <$> xs)
  = (λ _, true) <$> block_entries b block xs.
Proof. apply block_entries_fmap. Qed.

End masks.

(** ** The global mean *)

Section mean_facts.

Context {Diagnostics : Type}.
Variable tmpdiag : Diagnostics.
Variable is_invalid : double → Diagnostics → bool * Diagnostics.

(** The filtering loop of [compute_mean], as a fold over the values. *)
Lemma mean_fold (vals : list double) :
  ∀ (mean : double) (denom : nat) (diag : Diagnostics),
    fold_left (λ '(mean, denom, diag) val,
                 let '(invalid, diag) := is_invalid val diag in
                 if negb invalid
                 then (add mean val, S denom, diag)
                 else (mean, denom, diag))
              vals (mean, denom, diag)
    = (fold_left add (keep (negb <$> verdicts is_invalid diag vals) vals) mean,
       denom + length (keep (negb <$> verdicts is_invalid diag vals) vals),
       sink_after is_invalid diag vals).
Proof.
  induction vals as [|v vals IH]; intros mean denom diag; cbn [fold_left].
  - cbn. now rewrite Nat.add_0_r.
  - cbn [verdicts sink_after fmap list_fmap keep].
    destruct (is_invalid v diag) as [[|] diag'] eqn:E; cbn [negb fst snd].
    + apply IH.
    + rewrite IH. cbn [fold_left length]. f_equal. f_equal. lia.
Qed.

(** [compute_mean] returns the mean of the contributing values and, when
    it filters, the sink after the whole array has been classified. *)
Lemma compute_mean_spec (size_factors : list double)
    (diagnostics : option Diagnostics) (options : Options) :
  compute_mean tmpdiag is_invalid size_factors diagnostics options
  = (mean_of (contributing tmpdiag is_invalid options diagnostics size_factors),
     if ignore_invalid options
     then (λ _, sink_after is_invalid (default tmpdiag diagnostics) size_factors)
            <$> diagnostics
     else diagnostics).
Proof.
  unfold compute_mean, contributing, included.
  destruct (ignore_invalid options).
  - rewrite (for_range_fold (λ i, size_factors !!! i) _
               (λ '(mean, denom, diag) val,
                  let '(invalid, diag) := is_invalid val diag in
                  if negb invalid
                  then (add mean val, S denom, diag)
                  else (mean, denom, diag)));
      [|intros i [[mean denom] diag]; reflexivity
       |intros i Hi; now apply list_lookup_lookup_total_lt].
    rewrite mean_fold. cbn [Nat.add].
    destruct (keep _ size_factors) as [|v vs]; reflexivity.
  - rewrite keep_all. destruct size_factors; reflexivity.
Qed.

End mean_facts.

(** ** The per-block means *)

Section pairs.

Context {A B : Type} `{!Inhabited A, !Inhabited B}.

Lemma zip_lookup_total (xs : list A) :
  ∀ (ys : list B) (i : nat),
    length ys = length xs → i < length xs →
    zip xs ys !! i = Some (xs !!! i, ys !!! i).
Proof.
  induction xs as [|x xs IH]; intros [|y ys] i Hlen Hi; cbn in *; try lia.
  destruct i as [|i]; [reflexivity|]. cbn. apply IH; lia.
Qed.

Lemma zip_length (xs : list A) (ys : list B) :
  length ys = length xs → length (zip xs ys) = length xs.
Proof. intros H. rewrite length_zip_with. lia. Qed.

End pairs.

Section blocked_mean_facts.

Context {Diagnostics : Type}.
Variable tmpdiag : Diagnostics.
Variable is_invalid : double → Diagnostics → bool * Diagnostics.

(** The filtering loop of [compute_blocked_mean], as a fold over the
    (value, label) pairs. *)
Lemma blocked_fold_filtered (vals : list double) :
  ∀ (block : list nat) (gm : list double) (gn : list nat) (diag : Diagnostics),
    length block = length vals →
    ∃ gm' gn',
      fold_left (λ '(group_mean, group_num, diag) '(val, b),
                   let '(invalid, diag) := is_invalid val diag in
                   if negb invalid
                   then (alter (λ m, add m val) b group_mean,
                         alter S b group_num, diag)
                   else (group_mean, group_num, diag))
                (zip vals block) (gm, gn, diag)
      = (gm', gn', sink_after is_invalid diag vals) ∧
      length gm' = length gm ∧ length gn' = length gn ∧
      ∀ b, b < length gm → b < length gn →
        let vs := keep (block_entries b block (negb <$> verdicts is_invalid diag vals))
                       (block_entries b block vals) in
        gm' !!! b = fold_left add vs (gm !!! b) ∧
        gn' !!! b = gn !!! b + length vs.
Proof.
  induction vals as [|v vals IH]; intros [|c block] gm gn diag Hlen;
    cbn in Hlen; try lia.
  - exists gm, gn. cbn. repeat split; auto.
  - cbn [zip zip_with fold_left verdicts sink_after fmap list_fmap block_entries].
    destruct (is_invalid v diag) as [[|] diag'] eqn:E; cbn [negb fst snd].
    + destruct (IH block gm gn diag' ltac:(lia)) as (gm' & gn' & -> & Hm & Hn & Hb).
      exists gm', gn'. repeat split; auto; destruct (Nat.eqb c b);
        cbn [keep]; now apply Hb.
    + destruct (IH block (alter (λ m, add m v) c gm) (alter S c gn) diag' ltac:(lia))
        as (gm' & gn' & -> & Hm & Hn & Hb).
      rewrite length_alter in Hm; rewrite length_alter in Hn.
      exists gm', gn'. split; [reflexivity|]. split; [exact Hm|]. split; [exact Hn|].
      intros b Hbm Hbn. specialize (Hb b).
      rewrite !length_alter in Hb. specialize (Hb Hbm Hbn). cbn zeta in Hb.
      destruct (Nat.eqb_spec c b) as [->|Hne]; cbn [keep fold_left length].
      * rewrite !list_lookup_total_alter_eq in Hb by assumption.
        destruct Hb as [-> ->]. split; [reflexivity|lia].
      * rewrite !list_lookup_total_alter_ne in Hb by assumption. exact Hb.
Qed.

(** The loop without filtering. *)
Lemma blocked_fold_all (vals : list double) :
  ∀ (block : list nat) (gm : list double) (gn : list nat),
    length block = length vals →
    ∃ gm' gn',
      fold_left (λ '(group_mean, group_num) '(val, b),
                   (alter (λ m, add m val) b group_mean,
                    alter S b group_num))
                (zip vals block) (gm, gn)
      = (gm', gn') ∧
      length gm' = length gm ∧ length gn' = length gn ∧
      ∀ b, b < length gm → b < length gn →
        gm' !!! b = fold_left add (block_entries b block vals) (gm !!! b) ∧
        gn' !!! b = gn !!! b + length (block_entries b block vals).
Proof.
  induction vals as [|v vals IH]; intros [|c block] gm gn Hlen;
    cbn in Hlen; try lia.
  - exists gm, gn. cbn. repeat split; auto.
  - cbn [zip zip_with fold_left block_entries].
    destruct (IH block (alter (λ m, add m v) c gm) (alter S c gn) ltac:(lia))
      as (gm' & gn' & -> & Hm & Hn & Hb).
    rewrite length_alter in Hm; rewrite length_alter in Hn.
    exists gm', gn'. split; [reflexivity|]. split; [exact Hm|]. split; [exact Hn|].
    intros b Hbm Hbn. specialize (Hb b).
    rewrite !length_alter in Hb. specialize (Hb Hbm Hbn).
    destruct (Nat.eqb_spec c b) as [->|Hne]; cbn [fold_left length].
    + rewrite !list_lookup_total_alter_eq in Hb by assumption.
      destruct Hb as [-> ->]. split; [reflexivity|lia].
    + rewrite !list_lookup_total_alter_ne in Hb by assumption. exact Hb.
Qed.

(** The closing loop of [compute_blocked_mean] divides each sum by its
    count. *)
Lemma blocked_divide (gm : list double) (gn : list nat) :
  for_range (length gm) (λ g group_mean,
      if size_to_bool (gn !!! g)
      then alter (λ m, div m (of_size (gn !!! g))) g group_mean
      else group_mean) gm
  = map_from (λ g m, if size_to_bool (gn !!! g)
                     then div m (of_size (gn !!! g)) else m) 0 gm.
Proof.
  apply for_range_alter. intros g a.
  destruct (size_to_bool (gn !!! g)); [reflexivity|].
  symmetry. now apply list_alter_id.
Qed.

Lemma blocked_mean_of (vs : list double) :
  (if size_to_bool (0 + length vs)
   then div (fold_left add vs zero) (of_size (0 + length vs))
   else fold_left add vs zero) = mean_of vs.
Proof. destruct vs; reflexivity. Qed.

(** [compute_blocked_mean] returns one mean per block, each the mean of
    the contributing values of that block. *)
Lemma compute_blocked_mean_spec (size_factors : list double)
    (block : list nat) (diagnostics : option Diagnostics) (options : Options) :
  length block = length size_factors →
  let r := compute_blocked_mean tmpdiag is_invalid size_factors block
             diagnostics options in
  length r.1 = total_groups block (length size_factors) ∧
  (∀ b, b < total_groups block (length size_factors) →
     r.1 !!! b
     = mean_of (block_contributing tmpdiag is_invalid options diagnostics
                  b block size_factors)) ∧
  r.2 = if ignore_invalid options
        then (λ _, sink_after is_invalid (default tmpdiag diagnostics) size_factors)
               <$> diagnostics
        else diagnostics.
Proof.
  intros Hlen r.
  set (N := total_groups block (length size_factors)).
  assert (Hr : ∃ (gm' : list double) (gn' : list nat),
    r = (map_from (λ g m, if size_to_bool (gn' !!! g)
                          then div m (of_size (gn' !!! g)) else m) 0 gm',
         if ignore_invalid options
         then (λ _, sink_after is_invalid (default tmpdiag diagnostics) size_factors)
                <$> diagnostics
         else diagnostics) ∧
    length gm' = N ∧
    ∀ b, b < N →
      let vs := block_contributing tmpdiag is_invalid options diagnostics
                  b block size_factors in
      gm' !!! b = fold_left add vs zero ∧ gn' !!! b = 0 + length vs).
  { subst r. unfold compute_blocked_mean, block_contributing, included.
    fold N. destruct (ignore_invalid options).
    - rewrite <- (zip_length size_factors block Hlen).
      rewrite (for_range_fold (λ i, (size_factors !!! i, block !!! i)) _
                 (λ '(group_mean, group_num, diag) '(val, b),
                    let '(invalid, diag) := is_invalid val diag in
                    if negb invalid
                    then (alter (λ m, add m val) b group_mean,
                          alter S b group_num, diag)
                    else (group_mean, group_num, diag)));
        [|intros i [[gm gn] diag]; reflexivity
         |intros i Hi; rewrite zip_length in Hi by exact Hlen;
          now apply zip_lookup_total].
      destruct (blocked_fold_filtered size_factors block (replicate N zero)
                  (replicate N 0) (default tmpdiag diagnostics) Hlen)
        as (gm' & gn' & -> & Hm & Hn & Hb).
      rewrite length_replicate in Hm. rewrite length_replicate in Hn.
      exists gm', gn'. rewrite <- Hm at 1. rewrite blocked_divide.
      split; [reflexivity|]. split; [exact Hm|].
      intros b HbN. specialize (Hb b).
      rewrite !length_replicate in Hb. specialize (Hb HbN HbN).
      rewrite !lookup_total_replicate_2 in Hb by exact HbN. exact Hb.
    - rewrite <- (zip_length size_factors block Hlen).
      rewrite (for_range_fold (λ i, (size_factors !!! i, block !!! i)) _
                 (λ '(group_mean, group_num) '(val, b),
                    (alter (λ m, add m val) b group_mean,
                     alter S b group_num)));
        [|intros i [gm gn]; reflexivity
         |intros i Hi; rewrite zip_length in Hi by exact Hlen;
          now apply zip_lookup_total].
      destruct (blocked_fold_all size_factors block (replicate N zero)
                  (replicate N 0) Hlen)
        as (gm' & gn' & -> & Hm & Hn & Hb).
      rewrite length_replicate in Hm. rewrite length_replicate in Hn.
      exists gm', gn'. rewrite <- Hm at 1. rewrite blocked_divide.
      split; [reflexivity|]. split; [exact Hm|].
      intros b HbN. specialize (Hb b).
      rewrite !length_replicate in Hb. specialize (Hb HbN HbN).
      rewrite !lookup_total_replicate_2 in Hb by exact HbN.
      cbn zeta. rewrite block_entries_all, keep_all. exact Hb. }
  destruct Hr as (gm' & gn' & -> & Hm & Hb). cbn [fst snd].
  split; [now rewrite length_map_from|]. split; [|reflexivity].
  intros b HbN. destruct (Hb b HbN) as [Hs Hc].
  apply list_lookup_total_correct.
  rewrite lookup_map_from, (list_lookup_lookup_total_lt gm') by lia.
  cbn [fmap option_fmap option_map Nat.add]. rewrite Hs, Hc.
  f_equal. apply blocked_mean_of.
Qed.

End blocked_mean_facts.

(** ** Centering *)

Section centering_facts.

Context {Diagnostics : Type}.
Variable tmpdiag : Diagnostics.
Variable is_invalid : double → Diagnostics → bool * Diagnostics.

Lemma compute_unfold (size_factors : list double)
    (diagnostics : option Diagnostics) (options : Options) :
  compute tmpdiag is_invalid size_factors diagnostics options
  = let r := compute_mean tmpdiag is_invalid size_factors diagnostics options in
    (r.1, if to_bool r.1 then map (λ x, div x r.1) size_factors else size_factors,
     r.2).
Proof.
  unfold compute.
  destruct (compute_mean tmpdiag is_invalid size_factors diagnostics options)
    as [mean dg]. cbn [fst snd].
  destruct (to_bool mean); [|reflexivity].
  now rewrite for_range_alter_all.
Qed.

Lemma compute_blocked_per_block (size_factors : list double)
    (block : list nat) (diagnostics : option Diagnostics) (ii : bool) :
  let options := {| block_mode := PER_BLOCK; ignore_invalid := ii |} in
  compute_blocked tmpdiag is_invalid size_factors block diagnostics options
  = let r := compute_blocked_mean tmpdiag is_invalid size_factors block
               diagnostics options in
    (r.1,
     map_from (λ i x, if to_bool (r.1 !!! (block !!! i))
                      then div x (r.1 !!! (block !!! i)) else x)
              0 size_factors,
     r.2).
Proof.
  intros options. unfold compute_blocked.
  destruct (compute_blocked_mean tmpdiag is_invalid size_factors block
              diagnostics options) as [gm dg].
  cbn [fst snd block_mode options]. f_equal. f_equal.
  apply for_range_alter. intros i a.
  destruct (to_bool (gm !!! (block !!! i))); [reflexivity|].
  symmetry. now apply list_alter_id.
Qed.

Lemma compute_blocked_lowest (size_factors : list double)
    (block : list nat) (diagnostics : option Diagnostics) (ii : bool) :
  let options := {| block_mode := LOWEST; ignore_invalid := ii |} in
  compute_blocked tmpdiag is_invalid size_factors block diagnostics options
  = let r := compute_blocked_mean tmpdiag is_invalid size_factors block
               diagnostics options in
    let scan :=
      fold_left (λ '(min, found) m,
                   if to_bool m
                   then if negb found || ltb m min then (m, true) else (min, found)
                   else (min, found))
                r.1 (zero, false) in
    (r.1,
     if ltb zero scan.1
     then map (λ x, div x scan.1) size_factors else size_factors,
     r.2).
Proof.
  intros options. unfold compute_blocked.
  destruct (compute_blocked_mean tmpdiag is_invalid size_factors block
              diagnostics options) as [gm dg].
  cbn [fst snd block_mode options].
  destruct (fold_left _ gm (zero, false)) as [min found]. cbn [fst].
  destruct (ltb zero min); [|reflexivity].
  now rewrite for_range_alter_all.
Qed.

(** The entries of a block after the per-block rescaling are the entries
    of the block before, each rescaled by the mean of that block. *)
Lemma block_entries_rescaled (F : nat → double → double) (b : nat)
    (vals : list double) :
  ∀ (block pre : list nat),
    block_entries b block
      (map_from (λ i x, F ((pre ++ block) !!! i) x) (length pre) vals)
    = map (F b) (block_entries b block vals).
Proof.
  induction vals as [|v vals IH]; intros [|c block] pre; try reflexivity.
  cbn [map_from block_entries].
  rewrite list_lookup_total_middle by reflexivity.
  specialize (IH block (pre ++ [c])).
  rewrite <- app_assoc, length_app in IH. cbn [app length] in IH.
  rewrite Nat.add_1_r in IH. rewrite IH.
  destruct (Nat.eqb_spec c b) as [->|Hne]; reflexivity.
Qed.

Lemma total_groups_bound (block : list nat) (c : nat) :
  In c block → c < total_groups block (length block).
Proof.
  intros Hc. unfold total_groups. rewrite firstn_all.
  destruct block as [|c0 block]; [destruct Hc|].
  cbn [length size_to_bool Nat.eqb negb].
  apply list_elem_of_In, max_list_elem_of_le in Hc. lia.
Qed.

Lemma block_entries_absent {A : Type} (b : nat) (block : list nat) :
  (∀ c, In c block → c ≠ b) → ∀ xs : list A, block_entries b block xs = [].
Proof.
  induction block as [|c block IH]; intros Hc [|x xs]; try reflexivity.
  cbn [block_entries]. destruct (Nat.eqb_spec c b) as [->|Hne].
  - exfalso. apply (Hc b); [now left|reflexivity].
  - apply IH. intros c' Hc'. apply Hc. now right.
Qed.

(** With a verdict that does not depend on the sink, classifying a block
    on its own gives the verdicts the block got inside the whole array. *)
Lemma verdicts_block (b : nat) (vals : list double) :
  verdict_pure is_invalid →
  ∀ (block : list nat) (d d' : Diagnostics),
    block_entries b block (verdicts is_invalid d vals)
    = verdicts is_invalid d' (block_entries b block vals).
Proof.
  intros Hpure. induction vals as [|v vals IH]; intros [|c block] d d';
    try reflexivity.
  cbn [verdicts block_entries]. destruct (Nat.eqb c b); cbn [verdicts].
  - rewrite (Hpure v d d'). f_equal. apply IH.
  - apply IH.
Qed.

Lemma block_contributing_alone (options : Options)
    (dg dg' : option Diagnostics) (b : nat) (block : list nat)
    (vals : list double) :
  verdict_pure is_invalid →
  block_contributing tmpdiag is_invalid options dg b block vals
  = contributing tmpdiag is_invalid options dg' (block_entries b block vals).
Proof.
  intros Hpure. unfold block_contributing, contributing, included.
  destruct (ignore_invalid options).
  - rewrite block_entries_fmap.
    now rewrite (verdicts_block b vals Hpure block _ (default tmpdiag dg')).
  - now rewrite block_entries_all.
Qed.

(** ** The scan for the lowest mean *)

Lemma lowest_scan_found (means : list double) :
  (∀ m, In m means → is_zero m || is_pos m = true) →
  ∀ mn,
    fold_left (λ '(min, found) m,
                 if to_bool m
                 then if negb found || ltb m min then (m, true) else (min, found)
                 else (min, found))
              means (mn, true)
    = (fold_left fmin (List.filter is_pos means) mn, true).
Proof.
  induction means as [|m means IH]; intros Hall mn; [reflexivity|].
  cbn [fold_left List.filter].
  assert (Hm := Hall m ltac:(now left)).
  assert (Hall' : ∀ m, In m means → is_zero m || is_pos m = true)
    by (intros; apply Hall; now right).
  destruct (is_pos m) eqn:Ep.
  - rewrite (is_pos_to_bool m Ep). cbn [negb orb fold_left].
    rewrite <- (IH Hall'). unfold fmin. now destruct (ltb m mn).
  - rewrite orb_false_r in Hm. rewrite to_bool_is_zero, Hm. cbn [negb].
    now apply IH.
Qed.

Lemma lowest_scan (means : list double) :
  (∀ m, In m means → is_zero m || is_pos m = true) →
  fold_left (λ '(min, found) m,
               if to_bool m
               then if negb found || ltb m min then (m, true) else (min, found)
               else (min, found))
            means (zero, false)
  = match min_positive_mean means with
    | Some mn => (mn, true)
    | None => (zero, false)
    end.
Proof.
  unfold min_positive_mean.
  induction means as [|m means IH]; intros Hall; [reflexivity|].
  cbn [fold_left List.filter].
  assert (Hm := Hall m ltac:(now left)).
  assert (Hall' : ∀ m, In m means → is_zero m || is_pos m = true)
    by (intros; apply Hall; now right).
  destruct (is_pos m) eqn:Ep.
  - rewrite (is_pos_to_bool m Ep). cbn [negb orb].
    now apply lowest_scan_found.
  - rewrite orb_false_r in Hm. rewrite to_bool_is_zero, Hm. cbn [negb].
    now apply IH.
Qed.

Lemma min_positive_mean_Some (means : list double) (mn : double) :
  min_positive_mean means = Some mn → is_min_positive means mn.
Proof.
  unfold min_positive_mean.
  destruct (List.filter is_pos means) as [|p ps] eqn:E; [discriminate|].
  intros [= <-].
  assert (Hin : ∀ m, In m (p :: ps) ↔ In m means ∧ is_pos m = true)
    by (intros m; rewrite <- E; apply filter_In).
  assert (Hp : is_pos p = true) by (apply Hin; now left).
  assert (Hps : ∀ m, In m ps → is_pos m = true)
    by (intros m Hm; apply Hin; now right).
  split; [|split].
  - apply Hin, fold_fmin_In.
  - now apply fold_fmin_pos.
  - intros m Hm Hpos. apply fold_fmin_lower; auto. now apply Hin.
Qed.

Lemma min_positive_mean_None (means : list double) :
  min_positive_mean means = None → ∀ m, In m means → is_pos m = false.
Proof.
  unfold min_positive_mean.
  destruct (List.filter is_pos means) as [|p ps] eqn:E; [|discriminate].
  intros _ m Hm. destruct (is_pos m) eqn:Ep; [|reflexivity].
  assert (H : In m (List.filter is_pos means)) by now apply filter_In.
  rewrite E in H. destruct H.
Qed.

End centering_facts.

(** ** The sink *)

Section sink_facts.

Context {Diagnostics : Type}.
Variable tmpdiag : Diagnostics.
Variable is_invalid : double → Diagnostics → bool * Diagnostics.

(** The array and the mean returned by [compute] depend on the sink only
    through the mean that [compute_mean] returns. *)
Lemma compute_same_mean (size_factors : list double)
    (dg dg' : option Diagnostics) (options : Options) :
  (compute_mean tmpdiag is_invalid size_factors dg options).1
  = (compute_mean tmpdiag is_invalid size_factors dg' options).1 →
  (compute tmpdiag is_invalid size_factors dg options).1
  = (compute tmpdiag is_invalid size_factors dg' options).1.
Proof.
  intros H. rewrite !compute_unfold. cbn zeta. cbn [fst]. now rewrite H.
Qed.

Lemma compute_blocked_same_mean (size_factors : list double)
    (block : list nat) (dg dg' : option Diagnostics) (options : Options) :
  (compute_blocked_mean tmpdiag is_invalid size_factors block dg options).1
  = (compute_blocked_mean tmpdiag is_invalid size_factors block dg' options).1 →
  (compute_blocked tmpdiag is_invalid size_factors block dg options).1
  = (compute_blocked tmpdiag is_invalid size_factors block dg' options).1.
Proof.
  unfold compute_blocked.
  destruct (compute_blocked_mean tmpdiag is_invalid size_factors block dg options)
    as [gm d].
  destruct (compute_blocked_mean tmpdiag is_invalid size_factors block dg' options)
    as [gm' d'].
  cbn [fst]. intros ->. reflexivity.
Qed.

Lemma compute_sink (size_factors : list double)
    (dg : option Diagnostics) (options : Options) :
  (compute tmpdiag is_invalid size_factors dg options).2
  = (compute_mean tmpdiag is_invalid size_factors dg options).2.
Proof. now rewrite compute_unfold. Qed.

Lemma compute_blocked_sink (size_factors : list double)
    (block : list nat) (dg : option Diagnostics) (options : Options) :
  (compute_blocked tmpdiag is_invalid size_factors block dg options).2
  = (compute_blocked_mean tmpdiag is_invalid size_factors block dg options).2.
Proof.
  unfold compute_blocked.
  now destruct (compute_blocked_mean tmpdiag is_invalid size_factors block dg options).
Qed.

(** Without filtering the sink is handed back as it came, and the mean
    does not depend on it. *)
Lemma compute_mean_unfiltered (size_factors : list double)
    (dg : option Diagnostics) (mode : BlockMode) :
  compute_mean tmpdiag is_invalid size_factors dg
    {| block_mode := mode; ignore_invalid := false |}
  = (mean_of size_factors, dg).
Proof.
  rewrite compute_mean_spec. unfold contributing, included. cbn [ignore_invalid].
  now rewrite keep_all.
Qed.

Lemma compute_blocked_mean_unfiltered (size_factors : list double)
    (block : list nat) (dg dg' : option Diagnostics) (mode : BlockMode) :
  compute_blocked_mean tmpdiag is_invalid size_factors block dg
    {| block_mode := mode; ignore_invalid := false |}
  = ((compute_blocked_mean tmpdiag is_invalid size_factors block dg'
        {| block_mode := mode; ignore_invalid := false |}).1, dg).
Proof.
  unfold compute_blocked_mean. cbn [ignore_invalid].
  now destruct (for_range (length size_factors) _ _) as [gm gn].
Qed.

(** A null pointer and a default-constructed sink give the same means. *)
Lemma compute_mean_null (size_factors : list double) (options : Options) :
  (compute_mean tmpdiag is_invalid size_factors None options).1
  = (compute_mean tmpdiag is_invalid size_factors (Some tmpdiag) options).1.
Proof. now rewrite !compute_mean_spec. Qed.

Lemma compute_blocked_mean_null (size_factors : list double)
    (block : list nat) (options : Options) :
  (compute_blocked_mean tmpdiag is_invalid size_factors block None options).1
  = (compute_blocked_mean tmpdiag is_invalid size_factors block (Some tmpdiag)
       options).1.
Proof.
  unfold compute_blocked_mean. cbn [default].
  destruct (ignore_invalid options).
  - destruct (for_range (length size_factors) _ _) as [[gm gn] d]. reflexivity.
  - destruct (for_range (length size_factors) _ _) as [gm gn]. reflexivity.
Qed.

End sink_facts.

(** * Main theorems *)

(** The literals are the numbers they are named after. *)
Lemma literals_exact :
  Lit.one = of_Z 1 ∧ Lit.two = of_Z 2 ∧ Lit.three = of_Z 3 ∧
  Lit.minus_one = of_Z (-1) ∧
  add Lit.half Lit.half = Lit.one ∧ add Lit.one Lit.half = Lit.one_and_half ∧
  Lit.minus_half = SFopp Lit.half.
Proof. repeat split; reflexivity. Qed.

Lemma sanitize_verdict_pure : verdict_pure sanitize_size_factors.is_invalid.
Proof.
  intros v d d'. unfold sanitize_size_factors.is_invalid.
  destruct (ltb v zero), (eqb v zero), v; reflexivity.
Qed.

Section claims.

Context {Diagnostics : Type}.
Variable tmpdiag : Diagnostics.
Variable is_invalid : double → Diagnostics → bool * Diagnostics.

(** C1.  [compute] obtains the mean from [compute_mean] and returns it.  If
    the mean is zero the array is left as it is; otherwise (a NaN
    included) every element is divided by the mean.  For an array of
    zeros the mean returned is 0 and the array is unchanged. *)
Theorem compute_divides_by_mean (size_factors : list double)
    (diagnostics : option Diagnostics) (options : Options) :
  let r := compute tmpdiag is_invalid size_factors diagnostics options in
  let mean := (compute_mean tmpdiag is_invalid size_factors diagnostics options).1 in
  r.1.1 = mean ∧
  r.1.2 = (if is_zero mean
           then size_factors
           else map (λ x, div x mean) size_factors) ∧
  (forallb is_zero size_factors = true →
   r.1.1 = zero ∧ r.1.2 = size_factors).
Proof.
  intros r mean. subst r. rewrite compute_unfold. cbn zeta. cbn [fst snd].
  fold mean. rewrite to_bool_is_zero.
  split; [reflexivity|]. split; [now destruct (is_zero mean)|].
  intros Hz.
  assert (Hm : mean = zero).
  { subst mean. rewrite compute_mean_spec. cbn [fst].
    apply mean_of_zeros. now apply keep_forallb. }
  rewrite Hm. split; reflexivity.
Qed.

(** C4.  With [ignore_invalid] set, [compute_mean] returns the sum of the
    values the classifier accepts divided by their count; whatever the
    setting, it returns 0 when no value contributes, an empty array
    included. *)
Theorem compute_mean_of_valid (size_factors : list double)
    (diagnostics : option Diagnostics) (options : Options) :
  let mean := (compute_mean tmpdiag is_invalid size_factors diagnostics options).1 in
  (ignore_invalid options = true →
   let valid := keep (negb <$> verdicts is_invalid (default tmpdiag diagnostics)
                                 size_factors) size_factors in
   mean = if size_to_bool (length valid)
          then div (accumulate valid zero) (of_size (length valid))
          else zero) ∧
  (length (contributing tmpdiag is_invalid options diagnostics size_factors) = 0 →
   mean = zero) ∧
  (length size_factors = 0 → mean = zero).
Proof.
  intros mean. subst mean. rewrite compute_mean_spec. cbn [fst].
  split; [|split].
  - intros Hi. unfold contributing, included. rewrite Hi. cbn zeta.
    now destruct (keep _ size_factors).
  - intros Hl. now destruct (contributing _ _ _ _ _).
  - intros Hl. destruct size_factors; [|discriminate Hl].
    unfold contributing. now destruct (included _ _ _ _ _).
Qed.

(** C5.  [compute_blocked_mean] returns one mean per block: the sum of the
    included values of the block (all of them, or those the classifier
    accepts when [ignore_invalid] is set) divided by their count, and 0
    for a block without any.  The array is a [const] input: the function
    returns the means and the sink, and nothing else. *)
Theorem compute_blocked_mean_per_block (size_factors : list double)
    (block : list nat) (diagnostics : option Diagnostics) (options : Options) :
  length block = length size_factors →
  let means := (compute_blocked_mean tmpdiag is_invalid size_factors block
                  diagnostics options).1 in
  length means = total_groups block (length size_factors) ∧
  ∀ b, b < total_groups block (length size_factors) →
    let vs := block_contributing tmpdiag is_invalid options diagnostics
                b block size_factors in
    means !!! b = if size_to_bool (length vs)
                  then div (accumulate vs zero) (of_size (length vs))
                  else zero.
Proof.
  intros Hlen means.
  destruct (compute_blocked_mean_spec tmpdiag is_invalid size_factors block
              diagnostics options Hlen) as (HN & Hb & _).
  split; [exact HN|]. intros b HbN vs. subst means vs.
  rewrite (Hb b HbN). now destruct (block_contributing _ _ _ _ _ _ _).
Qed.

(** C7.  Under either strategy [compute_blocked] returns the vector of
    means as [compute_blocked_mean] computed it. *)
Theorem compute_blocked_returns_means (size_factors : list double)
    (block : list nat) (diagnostics : option Diagnostics) (options : Options) :
  (compute_blocked tmpdiag is_invalid size_factors block diagnostics options).1.1
  = (compute_blocked_mean tmpdiag is_invalid size_factors block diagnostics
       options).1.
Proof.
  unfold compute_blocked.
  now destruct (compute_blocked_mean tmpdiag is_invalid size_factors block
                  diagnostics options).
Qed.

(** C9.  With [ignore_invalid] unset none of the four functions writes the
    caller's sink, which comes back as it was, and none reads it: the
    results are the same whatever sink is passed. *)
Theorem diagnostics_bypassed_without_filtering (size_factors : list double)
    (block : list nat) (dg dg' : option Diagnostics) (mode : BlockMode) :
  let options := {| block_mode := mode; ignore_invalid := false |} in
  ((compute_mean tmpdiag is_invalid size_factors dg options).2 = dg ∧
   (compute tmpdiag is_invalid size_factors dg options).2 = dg ∧
   (compute_blocked_mean tmpdiag is_invalid size_factors block dg options).2 = dg ∧
   (compute_blocked tmpdiag is_invalid size_factors block dg options).2 = dg) ∧
  ((compute_mean tmpdiag is_invalid size_factors dg options).1
   = (compute_mean tmpdiag is_invalid size_factors dg' options).1 ∧
   (compute tmpdiag is_invalid size_factors dg options).1
   = (compute tmpdiag is_invalid size_factors dg' options).1 ∧
   (compute_blocked_mean tmpdiag is_invalid size_factors block dg options).1
   = (compute_blocked_mean tmpdiag is_invalid size_factors block dg' options).1 ∧
   (compute_blocked tmpdiag is_invalid size_factors block dg options).1
   = (compute_blocked tmpdiag is_invalid size_factors block dg' options).1).
Proof.
  intros options. subst options.
  assert (Hm : ∀ d d',
    (compute_mean tmpdiag is_invalid size_factors d
       {| block_mode := mode; ignore_invalid := false |}).1
    = (compute_mean tmpdiag is_invalid size_factors d'
         {| block_mode := mode; ignore_invalid := false |}).1)
    by (intros; now rewrite !compute_mean_unfiltered).
  assert (Hb : ∀ d d',
    (compute_blocked_mean tmpdiag is_invalid size_factors block d
       {| block_mode := mode; ignore_invalid := false |}).1
    = (compute_blocked_mean tmpdiag is_invalid size_factors block d'
         {| block_mode := mode; ignore_invalid := false |}).1)
    by (intros d d'; now rewrite (compute_blocked_mean_unfiltered _ _ _ _ d d')).
  split; repeat split.
  - now rewrite compute_mean_unfiltered.
  - now rewrite compute_sink, compute_mean_unfiltered.
  - now rewrite (compute_blocked_mean_unfiltered _ _ _ _ dg dg).
  - now rewrite compute_blocked_sink, (compute_blocked_mean_unfiltered _ _ _ _ dg dg).
  - apply Hm.
  - apply compute_same_mean, Hm.
  - apply Hb.
  - apply compute_blocked_same_mean, Hb.
Qed.

(** C10.  Called with a null [diagnostics] pointer, [compute] and
    [compute_blocked] return the same means and leave the same array as
    when called with a default-constructed sink. *)
Theorem null_sink_as_fresh_sink (size_factors : list double)
    (block : list nat) (options : Options) :
  (compute tmpdiag is_invalid size_factors None options).1
  = (compute tmpdiag is_invalid size_factors (Some tmpdiag) options).1 ∧
  (compute_blocked tmpdiag is_invalid size_factors block None options).1
  = (compute_blocked tmpdiag is_invalid size_factors block (Some tmpdiag) options).1.
Proof.
  split.
  - apply compute_same_mean, compute_mean_null.
  - apply compute_blocked_same_mean, compute_blocked_mean_null.
Qed.

End claims.

Section blocked_claims.

Context {Diagnostics : Type}.
Variable tmpdiag : Diagnostics.
Variable is_invalid : double → Diagnostics → bool * Diagnostics.

(** C2, as amended.  When no per-block mean is negative or a NaN,
    [compute_blocked] with the [LOWEST] strategy divides every value of the
    array, whatever its block, by the minimum strictly positive per-block
    mean if there is one, and leaves the array as it is otherwise. *)
Theorem lowest_divides_by_min_positive (size_factors : list double)
    (block : list nat) (diagnostics : option Diagnostics) (ii : bool) :
  let r := compute_blocked tmpdiag is_invalid size_factors block diagnostics
             {| block_mode := LOWEST; ignore_invalid := ii |} in
  (∀ m, In m r.1.1 → is_zero m || is_pos m = true) →
  lowest_rescaling r.1.1 size_factors r.1.2.
Proof.
  intros r. subst r. rewrite compute_blocked_lowest. cbn zeta. cbn [fst snd].
  set (means := (compute_blocked_mean tmpdiag is_invalid size_factors block
                   diagnostics _).1).
  intros Hall. rewrite (lowest_scan means Hall).
  destruct (min_positive_mean means) as [mn|] eqn:E; cbn [fst].
  - destruct (min_positive_mean_Some means mn E) as (Hin & Hpos & Hlow).
    change (ltb zero mn) with (is_pos mn). rewrite Hpos. split.
    + intros _. exists mn. repeat split; assumption.
    + intros Hnone. rewrite (Hnone mn Hin) in Hpos. discriminate Hpos.
  - assert (Hnone := min_positive_mean_None means E).
    change (ltb zero zero) with false. cbn iota. split.
    + intros (m & Hm & Hpos). rewrite (Hnone m Hm) in Hpos. discriminate Hpos.
    + reflexivity.
Qed.

(** C3.  With the [PER_BLOCK] strategy, and a classifier whose verdict on
    a value does not depend on the sink, the entries of block [b] after
    [compute_blocked] are the array that [compute] leaves when run on the
    entries of block [b] alone, and the mean of block [b] is the mean that
    [compute] returns; each value is divided by the mean of its own block
    unless that mean is zero. *)
Theorem per_block_is_compute_on_block (size_factors : list double)
    (block : list nat) (dg dg' : option Diagnostics) (ii : bool) (b : nat) :
  verdict_pure is_invalid →
  length block = length size_factors →
  let options := {| block_mode := PER_BLOCK; ignore_invalid := ii |} in
  let blocked := compute_blocked tmpdiag is_invalid size_factors block dg options in
  let alone := compute tmpdiag is_invalid (block_entries b block size_factors)
                 dg' options in
  block_entries b block blocked.1.2 = alone.1.2 ∧
  (b < total_groups block (length size_factors) →
   blocked.1.1 !!! b = alone.1.1) ∧
  (∀ i, i < length size_factors →
     blocked.1.2 !!! i
     = if is_zero (blocked.1.1 !!! (block !!! i))
       then size_factors !!! i
       else div (size_factors !!! i) (blocked.1.1 !!! (block !!! i))).
Proof.
  intros Hpure Hlen options blocked alone. subst blocked alone options.
  rewrite compute_blocked_per_block, compute_unfold. cbn zeta. cbn [fst snd].
  set (options := {| block_mode := PER_BLOCK; ignore_invalid := ii |}).
  destruct (compute_blocked_mean_spec tmpdiag is_invalid size_factors block
              dg options Hlen) as (HN & Hb & _).
  set (gm := (compute_blocked_mean tmpdiag is_invalid size_factors block dg
                options).1) in *.
  set (sub := block_entries b block size_factors).
  assert (Hmean : b < total_groups block (length size_factors) →
    gm !!! b = (compute_mean tmpdiag is_invalid sub dg' options).1).
  { intros HbN. rewrite (Hb b HbN), compute_mean_spec. cbn [fst].
    now rewrite (block_contributing_alone tmpdiag is_invalid options dg dg'). }
  split; [|split].
  - rewrite (block_entries_rescaled
               (λ c x, if to_bool (gm !!! c) then div x (gm !!! c) else x)
               b size_factors block []).
    fold sub.
    destruct (Nat.lt_ge_cases b (total_groups block (length size_factors)))
      as [HbN|HbN].
    + rewrite (Hmean HbN).
      destruct (to_bool _); [reflexivity|]. apply map_id.
    + assert (Hsub : sub = []).
      { apply block_entries_absent. intros c Hc.
        apply total_groups_bound in Hc. rewrite Hlen in Hc. lia. }
      rewrite Hsub. cbn [map]. now destruct (to_bool _).
  - exact Hmean.
  - intros i Hi. apply list_lookup_total_correct.
    rewrite lookup_map_from, (list_lookup_lookup_total_lt size_factors) by exact Hi.
    cbn [fmap option_fmap option_map Nat.add]. rewrite to_bool_is_zero.
    now destruct (is_zero _).
Qed.

(** C8.  On [1.0, -1.0, NaN, 3.0] with [ignore_invalid] unset the mean is
    taken over the four values and is a NaN; a NaN converts to [true], so
    the guard lets the division through and the array becomes all NaN. *)
Theorem compute_nan_mean_example (diagnostics : option Diagnostics)
    (mode : BlockMode) :
  let input := [Lit.one; Lit.minus_one; nan; Lit.three] in
  let r := compute tmpdiag is_invalid input diagnostics
             {| block_mode := mode; ignore_invalid := false |} in
  r.1.1 = div (accumulate input zero) (of_size 4) ∧
  r.1.1 = nan ∧
  to_bool r.1.1 = true ∧
  r.1.2 = [nan; nan; nan; nan].
Proof.
  intros input r. subst r.
  rewrite compute_unfold, compute_mean_unfiltered. repeat split; reflexivity.
Qed.

End blocked_claims.

(** C6, as stated: the array after the call would be
    [0.5, -1.0, NaN, 1.5].  It is not: the second entry is divided like the
    others. *)
Lemma compute_invalid_example_as_stated :
  let r := compute sanitize_size_factors.fresh sanitize_size_factors.is_invalid
             [Lit.one; Lit.minus_one; nan; Lit.three]
             (Some sanitize_size_factors.fresh) default_options in
  ¬ (r.1.1 = Lit.two ∧
     r.1.2 = [Lit.half; Lit.minus_one; nan; Lit.one_and_half]).
Proof. vm_compute. intros [_ H]. discriminate H. Qed.

(** C6, as amended.  On [1.0, -1.0, NaN, 3.0] with [ignore_invalid] set,
    [compute] returns the mean 2.0 of the two accepted values 1.0 and 3.0,
    the sink records a negative value and a NaN, and the array becomes
    [0.5, -0.5, NaN, 1.5]: the entries that are not accepted are divided
    like the others and not replaced. *)
Theorem compute_invalid_example (mode : BlockMode) :
  let input := [Lit.one; Lit.minus_one; nan; Lit.three] in
  let options := {| block_mode := mode; ignore_invalid := true |} in
  let r := compute sanitize_size_factors.fresh sanitize_size_factors.is_invalid
             input (Some sanitize_size_factors.fresh) options in
  contributing sanitize_size_factors.fresh sanitize_size_factors.is_invalid
    options (Some sanitize_size_factors.fresh) input = [Lit.one; Lit.three] ∧
  r.1.1 = Lit.two ∧
  r.2 = Some {| sanitize_size_factors.has_negative := true;
                sanitize_size_factors.has_zero := false;
                sanitize_size_factors.has_nan := true;
                sanitize_size_factors.has_infinite := false |} ∧
  r.1.2 = [Lit.half; Lit.minus_half; nan; Lit.one_and_half].
Proof. destruct mode; repeat split; reflexivity. Qed.

(** C2, as stated, at the array [-1.0, 2.0] with one value per block and
    [ignore_invalid] unset: the means are -1.0 and 2.0, so there is a block
    with a positive mean, and yet the array is left as it is. *)
Lemma lowest_negative_mean_as_stated :
  let r := compute_blocked sanitize_size_factors.fresh
             sanitize_size_factors.is_invalid
             [Lit.minus_one; Lit.two] [0; 1] None
             {| block_mode := LOWEST; ignore_invalid := false |} in
  r.1.1 = [Lit.minus_one; Lit.two] ∧
  r.1.2 = [Lit.minus_one; Lit.two] ∧
  ¬ lowest_rescaling r.1.1 [Lit.minus_one; Lit.two] r.1.2.
Proof.
  vm_compute. split; [reflexivity|]. split; [reflexivity|].
  intros [H _]. destruct H as (mn & (Hin & Hpos & _) & Heq).
  - exists Lit.two. split; [right; left|]; reflexivity.
  - destruct Hin as [<-|[<-|[]]]; vm_compute in Hpos, Heq; discriminate.
Qed.

(** ** Instances

    The theorems with a premise, applied to arrays of a few elements under
    the classifier of [sanitize_size_factors]. *)

(** An array of a positive and a negative zero: mean 0, nothing changes. *)
Lemma compute_divides_by_mean_witness :
  forallb is_zero [zero; S754_zero true] = true ∧
  (compute sanitize_size_factors.fresh sanitize_size_factors.is_invalid
     [zero; S754_zero true] None default_options).1
  = (zero, [zero; S754_zero true]).
Proof.
  split; [reflexivity|].
  destruct (compute_divides_by_mean sanitize_size_factors.fresh
              sanitize_size_factors.is_invalid [zero; S754_zero true] None
              default_options) as (_ & _ & H).
  destruct (H eq_refl) as [H1 H2].
  apply injective_projections; [exact H1|exact H2].
Defined.

(** The mean of [1.0, -1.0, NaN, 3.0] over the accepted values is 2.0, and
    the mean of [-1.0] alone, which has none, is 0. *)
Lemma compute_mean_of_valid_witness :
  ignore_invalid default_options = true ∧
  (compute_mean sanitize_size_factors.fresh sanitize_size_factors.is_invalid
     [Lit.one; Lit.minus_one; nan; Lit.three] None default_options).1 = Lit.two ∧
  length (contributing sanitize_size_factors.fresh
            sanitize_size_factors.is_invalid default_options None
            [Lit.minus_one]) = 0 ∧
  (compute_mean sanitize_size_factors.fresh sanitize_size_factors.is_invalid
     [Lit.minus_one] None default_options).1 = zero.
Proof.
  split; [reflexivity|]. split; [|split; [reflexivity|]].
  - rewrite (proj1 (compute_mean_of_valid sanitize_size_factors.fresh
                      sanitize_size_factors.is_invalid
                      [Lit.one; Lit.minus_one; nan; Lit.three] None
                      default_options) eq_refl).
    reflexivity.
  - apply (proj1 (proj2 (compute_mean_of_valid sanitize_size_factors.fresh
                           sanitize_size_factors.is_invalid [Lit.minus_one] None
                           default_options))).
    reflexivity.
Defined.

(** Two blocks, [1.0, 2.0] and [3.0, NaN]: the means are 1.5 and 3.0. *)
Lemma compute_blocked_mean_per_block_witness :
  length [0; 1; 0; 1] = length [Lit.one; Lit.three; Lit.two; nan] ∧
  let means := (compute_blocked_mean sanitize_size_factors.fresh
                  sanitize_size_factors.is_invalid
                  [Lit.one; Lit.three; Lit.two; nan] [0; 1; 0; 1] None
                  default_options).1 in
  length means = 2 ∧ means !!! 0 = Lit.one_and_half ∧ means !!! 1 = Lit.three.
Proof.
  split; [reflexivity|].
  destruct (compute_blocked_mean_per_block sanitize_size_factors.fresh
              sanitize_size_factors.is_invalid
              [Lit.one; Lit.three; Lit.two; nan] [0; 1; 0; 1] None
              default_options eq_refl) as [HN Hb].
  split; [exact HN|]. split.
  - rewrite (Hb 0); [reflexivity|]. repeat constructor.
  - rewrite (Hb 1); [reflexivity|]. repeat constructor.
Defined.

(** Block 0 of [1.0, 2.0, 3.0] with labels [0, 1, 0] is [1.0, 3.0]. *)
Lemma per_block_is_compute_on_block_witness :
  verdict_pure sanitize_size_factors.is_invalid ∧
  length [0; 1; 0] = length [Lit.one; Lit.two; Lit.three] ∧
  block_entries 0 [0; 1; 0]
    (compute_blocked sanitize_size_factors.fresh sanitize_size_factors.is_invalid
       [Lit.one; Lit.two; Lit.three] [0; 1; 0] None
       {| block_mode := PER_BLOCK; ignore_invalid := true |}).1.2
  = (compute sanitize_size_factors.fresh sanitize_size_factors.is_invalid
       [Lit.one; Lit.three] None
       {| block_mode := PER_BLOCK; ignore_invalid := true |}).1.2.
Proof.
  split; [exact sanitize_verdict_pure|]. split; [reflexivity|].
  apply (proj1 (per_block_is_compute_on_block sanitize_size_factors.fresh
                  sanitize_size_factors.is_invalid [Lit.one; Lit.two; Lit.three]
                  [0; 1; 0] None None true 0 sanitize_verdict_pure eq_refl)).
Defined.

(** Means 2.5 and 1.0: everything is divided by 1.0. *)
Lemma lowest_divides_by_min_positive_witness :
  let r := compute_blocked sanitize_size_factors.fresh
             sanitize_size_factors.is_invalid
             [Lit.two; Lit.three; Lit.one] [0; 0; 1] None default_options in
  (∀ m, In m r.1.1 → is_zero m || is_pos m = true) ∧
  lowest_rescaling r.1.1 [Lit.two; Lit.three; Lit.one] r.1.2.
Proof.
  assert (H : ∀ m,
    In m (compute_blocked sanitize_size_factors.fresh
            sanitize_size_factors.is_invalid
            [Lit.two; Lit.three; Lit.one] [0; 0; 1] None default_options).1.1 →
    is_zero m || is_pos m = true).
  { intros m Hm. vm_compute in Hm. destruct Hm as [<-|[<-|[]]]; reflexivity. }
  split; [exact H|].
  apply (lowest_divides_by_min_positive sanitize_size_factors.fresh
           sanitize_size_factors.is_invalid [Lit.two; Lit.three; Lit.one]
           [0; 0; 1] None true H).
Defined.

(** * Further properties of the four functions *)

(** ** Auxiliary facts *)

Section list_facts.

Context {A : Type}.

Lemma list_eq_total `{!Inhabited A} (l k : list A) :
  length l = length k → (∀ i, i < length l → l !!! i = k !!! i) → l = k.
Proof.
  intros Hlen Hi. apply list_eq. intros i.
  destruct (Nat.lt_ge_cases i (length l)) as [Hlt|Hge].
  - rewrite (list_lookup_lookup_total_lt l), (list_lookup_lookup_total_lt k) by lia.
    f_equal. now apply Hi.
  - rewrite !lookup_ge_None_2 by lia. reflexivity.
Qed.

Lemma map_from_ext (h g : nat → A → A) (l : list A) :
  ∀ k, (∀ i x, k ≤ i < k + length l → h i x = g i x) →
    map_from h k l = map_from g k l.
Proof.
  induction l as [|x l IH]; intros k H; [reflexivity|].
  cbn [map_from]. rewrite (H k x) by (cbn; lia). f_equal.
  apply IH. intros i y Hi. apply H. cbn. lia.
Qed.

Lemma map_from_id (k : nat) (l : list A) : map_from (λ _ x, x) k l = l.
Proof. rewrite (map_from_const (λ x, x)). apply map_id. Qed.

Lemma block_entries_single (n : nat) (xs : list A) :
  length xs = n → block_entries 0 (replicate n 0) xs = xs.
Proof.
  revert n. induction xs as [|x xs IH]; intros [|n] Hn; try discriminate Hn;
    [reflexivity|].
  cbn [replicate block_entries Nat.eqb]. f_equal. apply IH. now injection Hn.
Qed.

Lemma block_entries_forallb (p : A → bool) (b : nat) (block : list nat)
    (xs : list A) :
  forallb p xs = true → forallb p (block_entries b block xs) = true.
Proof.
  revert xs. induction block as [|c block IH]; intros [|x xs]; cbn; auto.
  intros [Hx Hxs]%andb_prop. destruct (Nat.eqb c b); cbn; [rewrite Hx|]; now apply IH.
Qed.

Lemma length_keep (mask : list bool) (xs : list A) :
  length (keep mask xs) ≤ length xs.
Proof.
  revert mask. induction xs as [|x xs IH]; intros [|[|] mask]; cbn; try lia.
  - specialize (IH mask). lia.
  - specialize (IH mask). lia.
Qed.

Lemma length_block_entries (b : nat) (block : list nat) (xs : list A) :
  length (block_entries b block xs) ≤ length xs.
Proof.
  revert block. induction xs as [|x xs IH]; intros [|c block]; cbn; try lia.
  specialize (IH block). destruct (Nat.eqb c b); cbn; lia.
Qed.

End list_facts.

Section further_facts.

Context {Diagnostics : Type}.
Variable tmpdiag : Diagnostics.
Variable is_invalid : double → Diagnostics → bool * Diagnostics.

Lemma length_verdicts (vals : list double) :
  ∀ d, length (verdicts is_invalid d vals) = length vals.
Proof. induction vals as [|v vals IH]; intros d; cbn; [|rewrite IH]; reflexivity. Qed.

Lemma length_included (options : Options) (dg : option Diagnostics)
    (vals : list double) :
  length (included tmpdiag is_invalid options dg vals) = length vals.
Proof.
  unfold included. destruct (ignore_invalid options); rewrite length_fmap;
    [apply length_verdicts|reflexivity].
Qed.

(** Every label indexes the vector of means. *)
Lemma label_in_bounds (block : list nat) (num i : nat) :
  length block = num → i < num → block !!! i < total_groups block num.
Proof.
  intros <- Hi. apply total_groups_bound, list_elem_of_In.
  now apply list_elem_of_lookup_total_2.
Qed.

Lemma total_groups_single (n : nat) :
  n ≠ 0 → total_groups (replicate n 0) n = 1.
Proof.
  intros Hn. unfold total_groups. destruct n as [|n]; [congruence|].
  cbn [size_to_bool Nat.eqb negb]. f_equal.
  rewrite firstn_all2 by (rewrite length_replicate; lia).
  clear Hn. generalize (S n). intros k.
  induction k as [|k IH]; [reflexivity|exact IH].
Qed.

(** The array that [compute_blocked] leaves depends on the options only
    through the strategy and the means. *)
Lemma compute_blocked_rescale_only (size_factors : list double)
    (block : list nat) (dg dg' : option Diagnostics) (options options' : Options) :
  block_mode options = block_mode options' →
  (compute_blocked_mean tmpdiag is_invalid size_factors block dg options).1
  = (compute_blocked_mean tmpdiag is_invalid size_factors block dg' options').1 →
  (compute_blocked tmpdiag is_invalid size_factors block dg options).1
  = (compute_blocked tmpdiag is_invalid size_factors block dg' options').1.
Proof.
  unfold compute_blocked.
  destruct (compute_blocked_mean tmpdiag is_invalid size_factors block dg options)
    as [gm d].
  destruct (compute_blocked_mean tmpdiag is_invalid size_factors block dg' options')
    as [gm' d'].
  cbn [fst]. intros -> ->. reflexivity.
Qed.

(** The scan for the lowest mean ends on the value it started from or on
    one of the means. *)
Lemma lowest_scan_member (means : list double) :
  ∀ (mn : double) (found : bool),
    let scan :=
      fold_left (λ '(min, found) m,
                   if to_bool m
                   then if negb found || ltb m min then (m, true) else (min, found)
                   else (min, found))
                means (mn, found) in
    scan.1 = mn ∨ In scan.1 means.
Proof.
  induction means as [|m means IH]; intros mn found; [now left|].
  cbn [fold_left].
  destruct (to_bool m); [destruct (negb found || ltb m mn)|].
  - destruct (IH m true) as [H|H]; [right; left; now rewrite H|right; now right].
  - destruct (IH mn found) as [H|H]; [now left|right; now right].
  - destruct (IH mn found) as [H|H]; [now left|right; now right].
Qed.

(** Under [LOWEST] the array is left alone or divided throughout by one
    strictly positive mean. *)
Lemma lowest_cases (size_factors : list double) (block : list nat)
    (dg : option Diagnostics) (ii : bool) :
  let r := compute_blocked tmpdiag is_invalid size_factors block dg
             {| block_mode := LOWEST; ignore_invalid := ii |} in
  r.1.2 = size_factors ∨
  ∃ mn, In mn r.1.1 ∧ is_pos mn = true ∧
        r.1.2 = map (λ x, div x mn) size_factors.
Proof.
  intros r. subst r. rewrite compute_blocked_lowest. cbn zeta. cbn [fst snd].
  set (means := (compute_blocked_mean tmpdiag is_invalid size_factors block dg _).1).
  destruct (lowest_scan_member means zero false) as [H|H];
    destruct (ltb zero _) eqn:E; auto.
  - rewrite H in E. discriminate E.
  - right. eexists. split; [exact H|]. split; [exact E|reflexivity].
Qed.

Lemma lowest_without_positive (size_factors : list double) (block : list nat)
    (dg : option Diagnostics) (ii : bool) :
  let r := compute_blocked tmpdiag is_invalid size_factors block dg
             {| block_mode := LOWEST; ignore_invalid := ii |} in
  (∀ m, In m r.1.1 → is_pos m = false) → r.1.2 = size_factors.
Proof.
  intros r Hnone. destruct (lowest_cases size_factors block dg ii)
    as [H|(mn & Hin & Hpos & _)]; [exact H|].
  rewrite (Hnone mn Hin) in Hpos. discriminate Hpos.
Qed.

(** The means of an array of zeros are zeros. *)
Lemma blocked_means_of_zeros (size_factors : list double) (block : list nat)
    (dg : option Diagnostics) (options : Options) :
  length block = length size_factors →
  forallb is_zero size_factors = true →
  let means := (compute_blocked_mean tmpdiag is_invalid size_factors block dg
                  options).1 in
  ∀ b, b < length means → means !!! b = zero.
Proof.
  intros Hlen Hz means b Hb.
  destruct (compute_blocked_mean_spec tmpdiag is_invalid size_factors block dg
              options Hlen) as (HN & Hm & _).
  fold means in HN, Hm. rewrite Hm by lia.
  apply mean_of_zeros. unfold block_contributing.
  now apply keep_forallb, block_entries_forallb.
Qed.

(** With every verdict negative the filter includes every value. *)
Lemma included_clean (mode : BlockMode) (dg : option Diagnostics)
    (vals : list double) :
  (∀ v, In v (verdicts is_invalid (default tmpdiag dg) vals) → v = false) →
  included tmpdiag is_invalid {| block_mode := mode; ignore_invalid := true |} dg vals
  = included tmpdiag is_invalid {| block_mode := mode; ignore_invalid := false |} dg vals.
Proof.
  unfold included. cbn [ignore_invalid].
  generalize (default tmpdiag dg). induction vals as [|v vals IH]; intros d H;
    [reflexivity|].
  cbn [verdicts fmap list_fmap] in *.
  rewrite (H (is_invalid v d).1) by now left. cbn [negb]. f_equal.
  apply IH. intros w Hw. apply H. now right.
Qed.

End further_facts.

(** ** Edge cases, invariants and how the functions compose *)

Section further_properties.

Context {Diagnostics : Type}.
Variable tmpdiag : Diagnostics.
Variable is_invalid : double → Diagnostics → bool * Diagnostics.

(** X1.  On an empty array every function returns at once: the mean is 0,
    the vector of means is empty, and array and sink are as they were. *)
Theorem empty_array_left_alone (diagnostics : option Diagnostics)
    (options : Options) :
  compute_mean tmpdiag is_invalid [] diagnostics options = (zero, diagnostics) ∧
  compute tmpdiag is_invalid [] diagnostics options = (zero, [], diagnostics) ∧
  compute_blocked_mean tmpdiag is_invalid [] [] diagnostics options
  = ([], diagnostics) ∧
  compute_blocked tmpdiag is_invalid [] [] diagnostics options
  = ([], [], diagnostics).
Proof.
  destruct options as [[|] [|]], diagnostics; repeat split; reflexivity.
Qed.


(** X3.  When no value contributes to the mean, for instance because the
    classifier rejects them all, [compute] returns 0 and leaves the array
    as it is. *)
Theorem compute_without_contribution (size_factors : list double)
    (diagnostics : option Diagnostics) (options : Options) :
  contributing tmpdiag is_invalid options diagnostics size_factors = [] →
  let r := compute tmpdiag is_invalid size_factors diagnostics options in
  r.1.1 = zero ∧ r.1.2 = size_factors.
Proof.
  intros Hc r. subst r. rewrite compute_unfold, compute_mean_spec, Hc.
  split; reflexivity.
Qed.

(** X4.  Under [LOWEST] the array is either left as it is or divided
    throughout by one per-block mean that is strictly positive: the
    divisor is never zero, negative or a NaN.  Without a strictly positive
    mean the array is left as it is. *)
Theorem lowest_divisor_is_positive_mean (size_factors : list double)
    (block : list nat) (diagnostics : option Diagnostics) (ii : bool) :
  let r := compute_blocked tmpdiag is_invalid size_factors block diagnostics
             {| block_mode := LOWEST; ignore_invalid := ii |} in
  (r.1.2 = size_factors ∨
   ∃ mn, In mn r.1.1 ∧ is_pos mn = true ∧
         r.1.2 = map (λ x, div x mn) size_factors) ∧
  ((∀ m, In m r.1.1 → is_pos m = false) → r.1.2 = size_factors).
Proof.
  intros r. split.
  - apply lowest_cases.
  - apply lowest_without_positive.
Qed.

(** X5.  With one label per value, every label indexes the vector of means
    that [compute_blocked_mean] returns: [group_mean[block[i]]] is within
    bounds. *)
Theorem labels_index_the_means (size_factors : list double) (block : list nat)
    (diagnostics : option Diagnostics) (options : Options) :
  length block = length size_factors →
  let means := (compute_blocked_mean tmpdiag is_invalid size_factors block
                  diagnostics options).1 in
  ∀ i, i < length size_factors → block !!! i < length means.
Proof.
  intros Hlen means i Hi.
  destruct (compute_blocked_mean_spec tmpdiag is_invalid size_factors block
              diagnostics options Hlen) as (HN & _).
  fold means in HN. rewrite HN. now apply label_in_bounds.
Qed.

(** X6.  With every value in block 0, [compute_blocked] under [PER_BLOCK]
    leaves the array and the sink that [compute] leaves, and its one mean
    is the mean that [compute] returns. *)
Theorem single_block_is_compute (size_factors : list double)
    (diagnostics : option Diagnostics) (ii : bool) :
  let options := {| block_mode := PER_BLOCK; ignore_invalid := ii |} in
  let block := replicate (length size_factors) 0 in
  let blocked := compute_blocked tmpdiag is_invalid size_factors block
                   diagnostics options in
  let global := compute tmpdiag is_invalid size_factors diagnostics options in
  blocked.1.2 = global.1.2 ∧ blocked.2 = global.2 ∧
  (size_factors ≠ [] → blocked.1.1 = [global.1.1]).
Proof.
  intros options block blocked global. subst blocked global.
  assert (Hlen : length block = length size_factors) by apply length_replicate.
  destruct (compute_blocked_mean_spec tmpdiag is_invalid size_factors block
              diagnostics options Hlen) as (HN & Hb & Hs).
  rewrite compute_blocked_sink, compute_sink.
  subst options. rewrite compute_blocked_per_block, compute_unfold.
  set (options := {| block_mode := PER_BLOCK; ignore_invalid := ii |}) in *.
  cbn zeta. cbn [fst snd].
  set (gm := (compute_blocked_mean tmpdiag is_invalid size_factors block
                diagnostics options).1) in *.
  assert (Hcontrib : block_contributing tmpdiag is_invalid options diagnostics
                       0 block size_factors
                     = contributing tmpdiag is_invalid options diagnostics
                         size_factors).
  { unfold block_contributing, contributing, block.
    rewrite !block_entries_single; [reflexivity|reflexivity|apply length_included]. }
  assert (HN1 : size_factors ≠ [] → length gm = 1).
  { intros Hne. rewrite HN. apply total_groups_single.
    destruct size_factors; [congruence|discriminate]. }
  assert (Hmean : size_factors ≠ [] →
    gm !!! 0 = (compute_mean tmpdiag is_invalid size_factors diagnostics options).1).
  { intros Hne. rewrite Hb, Hcontrib, compute_mean_spec; [reflexivity|].
    rewrite <- HN, (HN1 Hne). lia. }
  split; [|split].
  - assert (Hcases : size_factors = [] ∨ size_factors ≠ [])
      by (destruct size_factors; [now left|now right]).
    destruct Hcases as [He|Hne];
      [rewrite He; cbn [map_from map]; now destruct (to_bool _)|].
    rewrite (map_from_ext _
               (λ _ x, if to_bool (gm !!! 0) then div x (gm !!! 0) else x));
      [|intros i x Hi; unfold block;
        rewrite lookup_total_replicate_2 by lia; reflexivity].
    rewrite map_from_const.
    rewrite (Hmean Hne). destruct (to_bool _); [reflexivity|apply map_id].
  - rewrite Hs, compute_mean_spec. reflexivity.
  - intros Hne. apply list_eq_total; [now rewrite (HN1 Hne)|].
    intros i Hi. rewrite (HN1 Hne) in Hi.
    assert (i = 0) as -> by lia. now rewrite (Hmean Hne).
Qed.

(** X7.  On an array of zeros [compute_blocked] returns means that are all
    0 and leaves the array as it is, under either strategy. *)
Theorem blocked_zeros_left_alone (size_factors : list double) (block : list nat)
    (diagnostics : option Diagnostics) (options : Options) :
  length block = length size_factors →
  forallb is_zero size_factors = true →
  let r := compute_blocked tmpdiag is_invalid size_factors block diagnostics
             options in
  r.1.2 = size_factors ∧ ∀ b, b < length r.1.1 → r.1.1 !!! b = zero.
Proof.
  intros Hlen Hz r. subst r.
  assert (Hmeans := blocked_means_of_zeros tmpdiag is_invalid size_factors block
                      diagnostics options Hlen Hz).
  assert (Hbound := label_in_bounds block (length size_factors)).
  destruct (compute_blocked_mean_spec tmpdiag is_invalid size_factors block
              diagnostics options Hlen) as (HN & _).
  cbn zeta in Hmeans. destruct options as [[|] ii].
  - rewrite compute_blocked_per_block. cbn zeta. cbn [fst snd].
    split; [|exact Hmeans].
    rewrite (map_from_ext _ (λ _ x, x)); [apply map_from_id|].
    intros i x Hi. rewrite Hmeans; [reflexivity|].
    rewrite HN. apply Hbound; [exact Hlen|lia].
  - assert (Heq : (compute_blocked tmpdiag is_invalid size_factors block
                     diagnostics {| block_mode := LOWEST; ignore_invalid := ii |}).1.1
                  = (compute_blocked_mean tmpdiag is_invalid size_factors block
                       diagnostics {| block_mode := LOWEST; ignore_invalid := ii |}).1).
    { unfold compute_blocked. now destruct (compute_blocked_mean _ _ _ _ _ _). }
    split.
    + apply lowest_without_positive. rewrite Heq. intros m Hm.
      apply list_elem_of_In, list_elem_of_lookup_total_1 in Hm.
      destruct Hm as (b & Hb & <-). now rewrite Hmeans.
    + rewrite Heq. exact Hmeans.
Qed.

(** X8.  Under [PER_BLOCK] a value whose block has no contributing value
    is left as it is. *)
Theorem per_block_without_contribution (size_factors : list double)
    (block : list nat) (diagnostics : option Diagnostics) (ii : bool) (i : nat) :
  let options := {| block_mode := PER_BLOCK; ignore_invalid := ii |} in
  length block = length size_factors →
  i < length size_factors →
  block_contributing tmpdiag is_invalid options diagnostics (block !!! i)
    block size_factors = [] →
  (compute_blocked tmpdiag is_invalid size_factors block diagnostics options).1.2
    !!! i
  = size_factors !!! i.
Proof.
  intros options Hlen Hi Hc. subst options.
  rewrite compute_blocked_per_block. cbn zeta. cbn [fst snd].
  destruct (compute_blocked_mean_spec tmpdiag is_invalid size_factors block
              diagnostics {| block_mode := PER_BLOCK; ignore_invalid := ii |} Hlen)
    as (_ & Hb & _).
  apply list_lookup_total_correct.
  rewrite lookup_map_from, (list_lookup_lookup_total_lt size_factors) by exact Hi.
  cbn [fmap option_fmap option_map Nat.add].
  rewrite Hb by now apply label_in_bounds. rewrite Hc. reflexivity.
Qed.

(** X9.  [compute_blocked] leaves the sink that [compute] leaves on the
    same array: the labels and the strategy have no part in what is
    recorded. *)
Theorem blocked_sink_is_global_sink (size_factors : list double)
    (block : list nat) (diagnostics : option Diagnostics)
    (options options' : Options) :
  length block = length size_factors →
  ignore_invalid options = ignore_invalid options' →
  (compute_blocked tmpdiag is_invalid size_factors block diagnostics options).2
  = (compute tmpdiag is_invalid size_factors diagnostics options').2.
Proof.
  intros Hlen Hii. rewrite compute_blocked_sink, compute_sink.
  destruct (compute_blocked_mean_spec tmpdiag is_invalid size_factors block
              diagnostics options Hlen) as (_ & _ & ->).
  rewrite compute_mean_spec, Hii. reflexivity.
Qed.

(** X10.  When the classifier rejects none of the values, [ignore_invalid]
    has no effect on the means returned nor on the array left, in
    [compute] and in [compute_blocked]. *)
Theorem filtering_clean_array (size_factors : list double) (block : list nat)
    (diagnostics : option Diagnostics) (mode : BlockMode) :
  length block = length size_factors →
  (∀ v, In v (verdicts is_invalid (default tmpdiag diagnostics) size_factors) →
        v = false) →
  let filtered := {| block_mode := mode; ignore_invalid := true |} in
  let unfiltered := {| block_mode := mode; ignore_invalid := false |} in
  (compute tmpdiag is_invalid size_factors diagnostics filtered).1
  = (compute tmpdiag is_invalid size_factors diagnostics unfiltered).1 ∧
  (compute_blocked tmpdiag is_invalid size_factors block diagnostics filtered).1
  = (compute_blocked tmpdiag is_invalid size_factors block diagnostics unfiltered).1.
Proof.
  intros Hlen Hclean filtered unfiltered.
  assert (Hinc := included_clean tmpdiag is_invalid mode diagnostics size_factors
                    Hclean).
  fold filtered unfiltered in Hinc. split.
  - rewrite !compute_unfold. cbn zeta. cbn [fst].
    rewrite !compute_mean_spec. cbn [fst]. unfold contributing. now rewrite Hinc.
  - apply compute_blocked_rescale_only; [reflexivity|].
    destruct (compute_blocked_mean_spec tmpdiag is_invalid size_factors block
                diagnostics filtered Hlen) as (HN & Hb & _).
    destruct (compute_blocked_mean_spec tmpdiag is_invalid size_factors block
                diagnostics unfiltered Hlen) as (HN' & Hb' & _).
    apply list_eq_total; [congruence|].
    intros b Hlt. rewrite Hb, Hb' by lia. unfold block_contributing.
    now rewrite Hinc.
Qed.

End further_properties.

(** ** Sign and finiteness in binary64 *)

Section sign_facts.

Lemma nonneg_shape (x : double) :
  is_zero x || is_pos x = true ↔
  (∃ s, x = S754_zero s) ∨ x = S754_infinity false ∨
  ∃ m e, x = S754_finite false m e.
Proof.
  destruct x as [s|[|]| |[|] m e]; cbn; split; intros H;
    try discriminate H; eauto;
    destruct H as [[s' H]|[H|(m' & e' & H)]]; discriminate H.
Qed.

Lemma shr_1_nonneg (mrs : shr_record) :
  (0 ≤ shr_m mrs)%Z → (0 ≤ shr_m (shr_1 mrs))%Z.
Proof. destruct mrs as [[|[p|p|]|p] r s]; cbn; lia. Qed.

Lemma iter_shr_1_nonneg (n : positive) :
  ∀ mrs, (0 ≤ shr_m mrs)%Z → (0 ≤ shr_m (SpecFloat.iter_pos shr_1 n mrs))%Z.
Proof.
  induction n as [n IH|n IH|]; intros mrs H; cbn [SpecFloat.iter_pos].
  - now apply IH, IH, shr_1_nonneg.
  - now apply IH, IH.
  - now apply shr_1_nonneg.
Qed.

Lemma shr_fexp_nonneg (m e : Z) (l : location) :
  (0 ≤ m)%Z → (0 ≤ shr_m (shr_fexp prec emax m e l).1)%Z.
Proof.
  intros Hm. unfold shr_fexp, shr.
  assert (H0 : (0 ≤ shr_m (shr_record_of_loc m l))%Z)
    by (destruct l as [|[| |]]; exact Hm).
  destruct (fexp prec emax (Zdigits2 m + e) - e)%Z; cbn [fst]; auto.
  now apply iter_shr_1_nonneg.
Qed.

(** Rounding a non-negative mantissa with a positive sign gives a zero, a
    positive number or plus infinity. *)
Lemma binary_round_aux_nonneg (m e : Z) (l : location) :
  (0 ≤ m)%Z →
  let r := binary_round_aux prec emax false m e l in
  is_zero r || is_pos r = true.
Proof.
  intros Hm r. subst r. unfold binary_round_aux.
  assert (H1 := shr_fexp_nonneg m e l Hm).
  destruct (shr_fexp prec emax m e l) as [mrs' e']. cbn [fst] in H1.
  set (q := round_nearest_even (shr_m mrs') (loc_of_shr_record mrs')).
  assert (Hq : (0 ≤ q)%Z).
  { subst q. unfold round_nearest_even.
    destruct (loc_of_shr_record mrs') as [|[| |]]; try lia.
    destruct (Z.even (shr_m mrs')); lia. }
  assert (H2 := shr_fexp_nonneg q e' loc_Exact Hq).
  destruct (shr_fexp prec emax q e' loc_Exact) as [mrs'' e'']. cbn [fst] in H2.
  destruct (shr_m mrs'') as [|p|p]; [reflexivity| |lia].
  destruct (e'' <=? emax - prec)%Z; reflexivity.
Qed.

Lemma add_nonneg (x : double) (m : positive) (e : Z) :
  is_zero x || is_pos x = true →
  is_zero (add x (S754_finite false m e))
  || is_pos (add x (S754_finite false m e)) = true.
Proof.
  intros [[s ->]|[->|(mx & ex & ->)]]%nonneg_shape; try reflexivity.
  unfold add, SFadd. cbn [cond_Zopp].
  generalize (shl_align mx ex (Z.min ex e)).1 (shl_align m e (Z.min ex e)).1.
  intros a b. change (Zpos a + Zpos b)%Z with (Zpos (a + b)).
  cbn [binary_normalize]. unfold binary_round.
  destruct (shl_align _ _ _) as [mz ez]. now apply binary_round_aux_nonneg.
Qed.

Lemma div_nonneg (x : double) (m : positive) (e : Z) :
  is_zero x || is_pos x = true →
  is_zero (div x (S754_finite false m e))
  || is_pos (div x (S754_finite false m e)) = true.
Proof.
  intros [[s ->]|[->|(mx & ex & ->)]]%nonneg_shape; try reflexivity.
  unfold div, SFdiv, SFdiv_core_binary. cbn [xorb].
  set (s := (_ - _ - _)%Z).
  set (m' := match s with Z0 => Zpos mx | Zpos _ => Z.shiftl (Zpos mx) s
                        | Zneg _ => 0%Z end).
  assert (Hm' : (0 ≤ m')%Z).
  { subst m'. destruct s; try lia. apply Z.shiftl_nonneg. lia. }
  assert (Hq : (0 ≤ (Z.div_eucl m' (Zpos m)).1)%Z).
  { change (Z.div_eucl m' (Zpos m)).1 with (m' / Zpos m)%Z.
    apply Z.div_pos; lia. }
  destruct (Z.div_eucl m' (Zpos m)) as [q r]. cbn [fst] in Hq.
  now apply binary_round_aux_nonneg.
Qed.

Lemma accumulate_nonneg (vals : list double) :
  (∀ x, In x vals → ∃ m e, x = S754_finite false m e) →
  ∀ acc, is_zero acc || is_pos acc = true →
    is_zero (fold_left add vals acc) || is_pos (fold_left add vals acc) = true.
Proof.
  induction vals as [|v vals IH]; intros Hv acc Hacc; [exact Hacc|].
  cbn [fold_left]. apply IH; [intros x Hx; apply Hv; now right|].
  destruct (Hv v ltac:(now left)) as (m & e & ->). now apply add_nonneg.
Qed.

(** ** The conversion of a [size_t] is finite *)

Lemma digits2_pos_lower (p : positive) :
  (2 ^ (Zpos (digits2_pos p) - 1) ≤ Zpos p)%Z.
Proof.
  induction p as [p IH|p IH|]; cbn [digits2_pos]; [| |cbn; lia].
  - rewrite Pos2Z.inj_succ.
    replace (Z.succ (Zpos (digits2_pos p)) - 1)%Z
      with (Z.succ (Zpos (digits2_pos p) - 1)) by lia.
    rewrite Z.pow_succ_r by lia. lia.
  - rewrite Pos2Z.inj_succ.
    replace (Z.succ (Zpos (digits2_pos p)) - 1)%Z
      with (Z.succ (Zpos (digits2_pos p) - 1)) by lia.
    rewrite Z.pow_succ_r by lia. lia.
Qed.

Lemma digits2_pos_bound (p : positive) (k : Z) :
  (0 ≤ k)%Z → (Zpos p < 2 ^ k)%Z → (Zpos (digits2_pos p) ≤ k)%Z.
Proof.
  intros Hk Hp. assert (H := digits2_pos_lower p).
  destruct (Z.le_gt_cases (Zpos (digits2_pos p)) k) as [|Hgt]; [assumption|].
  assert (2 ^ k ≤ 2 ^ (Zpos (digits2_pos p) - 1))%Z
    by (apply Z.pow_le_mono_r; lia).
  lia.
Qed.

Lemma digits2_pos_succ (p : positive) :
  (Zpos (digits2_pos (Pos.succ p)) ≤ Zpos (digits2_pos p) + 1)%Z.
Proof.
  induction p as [p IH|p IH|].
  - change (Pos.succ p~1) with ((Pos.succ p)~0)%positive.
    cbn [digits2_pos]. rewrite !Pos2Z.inj_succ. lia.
  - change (Pos.succ p~0) with (p~1)%positive.
    cbn [digits2_pos]. lia.
  - change (Pos.succ 1) with 2%positive. cbn. lia.
Qed.

(** Rounding a mantissa that lies in the normal range, well below the
    overflow threshold, gives a finite positive number. *)
Lemma binary_round_aux_finite (m : positive) (e : Z) :
  (emin prec emax ≤ e)%Z →
  (emin prec emax ≤ Zpos (digits2_pos m) + e - prec)%Z →
  (e + Z.max (Zpos (digits2_pos m) - prec) 0 + 1 ≤ emax - prec)%Z →
  ∃ m' e', binary_round_aux prec emax false (Zpos m) e loc_Exact
           = S754_finite false m' e'.
Proof.
  intros He Hd Hmax. unfold binary_round_aux.
  destruct (shr_fexp prec emax (Zpos m) e loc_Exact) as [mrs' e'] eqn:E1.
  unfold shr_fexp in E1. cbn [shr_record_of_loc Zdigits2] in E1.
  set (r0 := {| shr_m := Zpos m; shr_r := false; shr_s := false |}) in E1.
  assert (D0 : shr_digits r0 = Zpos (digits2_pos m)) by reflexivity.
  assert (F1 : fexp prec emax (Zpos (digits2_pos m) + e)
               = (Zpos (digits2_pos m) + e - prec)%Z) by (unfold fexp; lia).
  rewrite F1 in E1.
  destruct (shr_digits_pos r0 e (Zpos (digits2_pos m) + e - prec - e))
    as (P1 & Q1 & R1); [lia|unfold prec; lia|].
  rewrite E1 in P1, Q1, R1. cbn [fst snd] in P1, Q1, R1.
  set (q := round_nearest_even (shr_m mrs') (loc_of_shr_record mrs')).
  assert (Hq : ∃ q', q = Zpos q' ∧
                     (Zpos (digits2_pos q') ≤ shr_digits mrs' + 1)%Z).
  { unfold shr_digits in *. destruct (shr_m mrs') as [|p|p] eqn:Em; try lia.
    assert (Hs : (Zpos p + 1)%Z = Zpos (Pos.succ p)) by lia.
    assert (Hd' := digits2_pos_succ p).
    subst q. try rewrite Em. unfold round_nearest_even.
    destruct (loc_of_shr_record mrs') as [|[| |]];
      try (exists p; split; [reflexivity|lia]);
      try (rewrite Hs; exists (Pos.succ p); split; [reflexivity|lia]).
    destruct (Z.even (Zpos p));
      [exists p; split; [reflexivity|lia]
      |rewrite Hs; exists (Pos.succ p); split; [reflexivity|lia]]. }
  destruct Hq as (q' & Hq & Hdq). rewrite Hq.
  destruct (shr_fexp prec emax (Zpos q') e' loc_Exact) as [mrs'' e''] eqn:E2.
  unfold shr_fexp in E2. cbn [shr_record_of_loc Zdigits2] in E2.
  set (r1 := {| shr_m := Zpos q'; shr_r := false; shr_s := false |}) in E2.
  assert (D1 : shr_digits r1 = Zpos (digits2_pos q')) by reflexivity.
  destruct (shr_digits_pos r1 e' (fexp prec emax (Zpos (digits2_pos q') + e') - e'))
    as (P2 & _ & R2);
    [rewrite D1; lia | rewrite D1; unfold fexp; change prec with 53%Z in *; lia |].
  rewrite E2 in P2, R2. cbn [fst snd] in P2, R2.
  unfold shr_digits in P2. destruct (shr_m mrs'') as [|p|p]; try lia.
  assert (Hfin : (e'' <=? emax - prec)%Z = true).
  { apply Z.leb_le. rewrite R2, R1. unfold fexp.
    change prec with 53%Z in *. change emax with 1024%Z in *. lia. }
  rewrite Hfin. eauto.
Qed.

(** A positive count below 2^64 converts to a finite positive number. *)
Lemma of_size_finite (n : nat) :
  (Z.of_nat (S n) < 2 ^ 64)%Z → ∃ m e, of_size (S n) = S754_finite false m e.
Proof.
  intros Hn. unfold of_size, of_Z.
  destruct (Z.of_nat (S n)) as [|p|p] eqn:E; try lia.
  cbn [binary_normalize]. unfold binary_round, shl_align.
  assert (Hdp := digits2_pos_bound p 64 ltac:(lia) Hn).
  assert (F : fexp prec emax (Zpos (digits2_pos p) + 0)
              = (Zpos (digits2_pos p) - prec)%Z)
    by (unfold fexp, emin, prec, emax; lia).
  rewrite F.
  destruct (Zpos (digits2_pos p) - prec - 0)%Z as [|d|d] eqn:Ed.
  - apply binary_round_aux_finite; unfold emin, prec, emax in *; lia.
  - apply binary_round_aux_finite; unfold emin, prec, emax in *; lia.
  - apply binary_round_aux_finite; rewrite ?digits2_pos_iter_xO;
      unfold emin, prec, emax in *; lia.
Qed.

(** The mean of strictly positive finite values is a zero, a positive
    number or plus infinity. *)
Lemma mean_of_nonneg (vals : list double) :
  (∀ x, In x vals → ∃ m e, x = S754_finite false m e) →
  (Z.of_nat (length vals) < 2 ^ 64)%Z →
  is_zero (mean_of vals) || is_pos (mean_of vals) = true.
Proof.
  intros Hv Hn. destruct vals as [|v vals]; [reflexivity|].
  unfold mean_of. cbn [length] in *.
  destruct (of_size_finite (length vals) Hn) as (m & e & ->).
  apply div_nonneg. unfold accumulate. now apply accumulate_nonneg.
Qed.

End sign_facts.

(** ** Filtered means *)

Section filtered_facts.

Context {Diagnostics : Type}.
Variable tmpdiag : Diagnostics.
Variable is_invalid : double → Diagnostics → bool * Diagnostics.

Lemma kept_accepted (vals : list double) :
  ∀ (d : Diagnostics) (x : double),
    In x (keep (negb <$> verdicts is_invalid d vals) vals) →
    ∃ d', (is_invalid x d').1 = false.
Proof.
  induction vals as [|v vals IH]; intros d x Hx; [destruct Hx|].
  cbn [verdicts fmap list_fmap keep] in Hx.
  destruct (is_invalid v d).1 eqn:E; cbn [negb] in Hx.
  - exact (IH _ x Hx).
  - destruct Hx as [<-|Hx]; [eauto|exact (IH _ x Hx)].
Qed.

Lemma block_kept_accepted (b : nat) (vals : list double) :
  ∀ (block : list nat) (d : Diagnostics) (x : double),
    In x (keep (block_entries b block (negb <$> verdicts is_invalid d vals))
               (block_entries b block vals)) →
    ∃ d', (is_invalid x d').1 = false.
Proof.
  induction vals as [|v vals IH]; intros [|c block] d x Hx; try destruct Hx.
  cbn [verdicts fmap list_fmap block_entries] in Hx.
  destruct (Nat.eqb c b); [|exact (IH block _ x Hx)].
  cbn [keep] in Hx. destruct (is_invalid v d).1 eqn:E; cbn [negb] in Hx.
  - exact (IH block _ x Hx).
  - destruct Hx as [<-|Hx]; [eauto|exact (IH block _ x Hx)].
Qed.

(** With a classifier that accepts only strictly positive finite values,
    the filtered mean of fewer than 2^64 values is a zero, a positive
    number or plus infinity. *)
Lemma filtered_mean_nonneg (size_factors : list double)
    (dg : option Diagnostics) (mode : BlockMode) :
  accepts_positive_finite is_invalid →
  (Z.of_nat (length size_factors) < 2 ^ 64)%Z →
  let m := (compute_mean tmpdiag is_invalid size_factors dg
              {| block_mode := mode; ignore_invalid := true |}).1 in
  is_zero m || is_pos m = true.
Proof.
  intros Hacc Hn m. subst m. rewrite compute_mean_spec. cbn [fst].
  unfold contributing, included. cbn [ignore_invalid].
  apply mean_of_nonneg.
  - intros x Hx. destruct (kept_accepted _ _ _ Hx) as [d' Hd']. eauto.
  - assert (H := length_keep (negb <$> verdicts is_invalid (default tmpdiag dg)
                                         size_factors) size_factors). lia.
Qed.

Lemma filtered_block_means_nonneg (size_factors : list double)
    (block : list nat) (dg : option Diagnostics) (mode : BlockMode) :
  accepts_positive_finite is_invalid →
  length block = length size_factors →
  (Z.of_nat (length size_factors) < 2 ^ 64)%Z →
  ∀ m, In m (compute_blocked_mean tmpdiag is_invalid size_factors block dg
               {| block_mode := mode; ignore_invalid := true |}).1 →
       is_zero m || is_pos m = true.
Proof.
  intros Hacc Hlen Hn m Hm.
  destruct (compute_blocked_mean_spec tmpdiag is_invalid size_factors block dg
              {| block_mode := mode; ignore_invalid := true |} Hlen)
    as (HN & Hb & _).
  apply list_elem_of_In, list_elem_of_lookup_total_1 in Hm.
  destruct Hm as (b & Hlt & <-). rewrite Hb by lia.
  unfold block_contributing, included. cbn [ignore_invalid].
  apply mean_of_nonneg.
  - intros x Hx. destruct (block_kept_accepted _ _ _ _ _ Hx) as [d' Hd']. eauto.
  - assert (H1 := length_keep
                    (block_entries b block
                       (negb <$> verdicts is_invalid (default tmpdiag dg)
                                   size_factors))
                    (block_entries b block size_factors)).
    assert (H2 := length_block_entries b block size_factors). lia.
Qed.

(** X11.  With [ignore_invalid] set and a classifier that accepts only
    strictly positive finite values, no mean is negative or a NaN: the
    global mean and every per-block mean is a zero, a positive number or
    plus infinity. *)
Theorem filtered_means_nonneg (size_factors : list double)
    (block : list nat) (diagnostics : option Diagnostics) (mode : BlockMode) :
  accepts_positive_finite is_invalid →
  length block = length size_factors →
  (Z.of_nat (length size_factors) < 2 ^ 64)%Z →
  let options := {| block_mode := mode; ignore_invalid := true |} in
  (let m := (compute_mean tmpdiag is_invalid size_factors diagnostics options).1 in
   is_zero m || is_pos m = true) ∧
  ∀ m, In m (compute_blocked_mean tmpdiag is_invalid size_factors block
               diagnostics options).1 →
       is_zero m || is_pos m = true.
Proof.
  intros Hacc Hlen Hn options. split.
  - now apply filtered_mean_nonneg.
  - now apply filtered_block_means_nonneg.
Qed.

(** X12.  With [ignore_invalid] set and a classifier that accepts only
    strictly positive finite values, [LOWEST] divides every value by the
    minimum strictly positive per-block mean when there is one, and leaves
    the array as it is otherwise. *)
Theorem lowest_filtered (size_factors : list double) (block : list nat)
    (diagnostics : option Diagnostics) :
  accepts_positive_finite is_invalid →
  length block = length size_factors →
  (Z.of_nat (length size_factors) < 2 ^ 64)%Z →
  let r := compute_blocked tmpdiag is_invalid size_factors block diagnostics
             {| block_mode := LOWEST; ignore_invalid := true |} in
  lowest_rescaling r.1.1 size_factors r.1.2.
Proof.
  intros Hacc Hlen Hn r. subst r.
  assert (Hall := filtered_block_means_nonneg size_factors block diagnostics
                    LOWEST Hacc Hlen Hn).
  rewrite compute_blocked_lowest. cbn zeta. cbn [fst snd].
  set (means := (compute_blocked_mean tmpdiag is_invalid size_factors block
                   diagnostics _).1) in *.
  rewrite (lowest_scan means Hall).
  destruct (min_positive_mean means) as [mn|] eqn:E; cbn [fst].
  - destruct (min_positive_mean_Some means mn E) as (Hin & Hpos & Hlow).
    change (ltb zero mn) with (is_pos mn). rewrite Hpos. split.
    + intros _. exists mn. repeat split; assumption.
    + intros Hnone. rewrite (Hnone mn Hin) in Hpos. discriminate Hpos.
  - assert (Hnone := min_positive_mean_None means E).
    change (ltb zero zero) with false. cbn iota. split.
    + intros (m & Hm & Hpos). rewrite (Hnone m Hm) in Hpos. discriminate Hpos.
    + reflexivity.
Qed.

End filtered_facts.

Lemma sanitize_accepts_positive_finite :
  accepts_positive_finite sanitize_size_factors.is_invalid.
Proof.
  intros v d. destruct v as [[|]|[|]| |[|] m e]; cbn; intros H;
    try discriminate H; eauto.
Qed.

(** ** Instances of the further properties *)

(** [-1.0, NaN]: nothing is accepted, nothing changes. *)
Lemma compute_without_contribution_witness :
  contributing sanitize_size_factors.fresh sanitize_size_factors.is_invalid
    default_options None [Lit.minus_one; nan] = [] ∧
  let r := compute sanitize_size_factors.fresh sanitize_size_factors.is_invalid
             [Lit.minus_one; nan] None default_options in
  r.1.1 = zero ∧ r.1.2 = [Lit.minus_one; nan].
Proof.
  split; [reflexivity|].
  apply (compute_without_contribution sanitize_size_factors.fresh
           sanitize_size_factors.is_invalid [Lit.minus_one; nan] None
           default_options eq_refl).
Defined.

(** Means 2.5 and 1.0: the array is divided by 1.0, a positive mean. *)
Lemma lowest_divisor_is_positive_mean_witness :
  let r := compute_blocked sanitize_size_factors.fresh
             sanitize_size_factors.is_invalid
             [Lit.two; Lit.three; Lit.one] [0; 0; 1] None default_options in
  r.1.2 = [Lit.two; Lit.three; Lit.one] ∨
  ∃ mn, In mn r.1.1 ∧ is_pos mn = true ∧
        r.1.2 = map (λ x, div x mn) [Lit.two; Lit.three; Lit.one].
Proof.
  apply (proj1 (lowest_divisor_is_positive_mean sanitize_size_factors.fresh
                  sanitize_size_factors.is_invalid
                  [Lit.two; Lit.three; Lit.one] [0; 0; 1] None true)).
Defined.

(** Labels [0, 2, 1]: label 2 is below the three means. *)
Lemma labels_index_the_means_witness :
  length [0; 2; 1] = length [Lit.one; Lit.two; Lit.three] ∧
  [0; 2; 1] !!! 1
  < length (compute_blocked_mean sanitize_size_factors.fresh
              sanitize_size_factors.is_invalid [Lit.one; Lit.two; Lit.three]
              [0; 2; 1] None default_options).1.
Proof.
  split; [reflexivity|].
  apply (labels_index_the_means sanitize_size_factors.fresh
           sanitize_size_factors.is_invalid [Lit.one; Lit.two; Lit.three]
           [0; 2; 1] None default_options eq_refl 1).
  repeat constructor.
Defined.

(** [1.0, 3.0] in a single block: one mean, 2.0. *)
Lemma single_block_is_compute_witness :
  [Lit.one; Lit.three] ≠ [] ∧
  (compute_blocked sanitize_size_factors.fresh sanitize_size_factors.is_invalid
     [Lit.one; Lit.three] (replicate 2 0) None
     {| block_mode := PER_BLOCK; ignore_invalid := true |}).1.1
  = [(compute sanitize_size_factors.fresh sanitize_size_factors.is_invalid
        [Lit.one; Lit.three] None
        {| block_mode := PER_BLOCK; ignore_invalid := true |}).1.1].
Proof.
  assert (Hne : [Lit.one; Lit.three] ≠ []) by discriminate.
  split; [exact Hne|].
  apply (proj2 (proj2 (single_block_is_compute sanitize_size_factors.fresh
                         sanitize_size_factors.is_invalid [Lit.one; Lit.three]
                         None true)) Hne).
Defined.

(** Three zeros in two blocks. *)
Lemma blocked_zeros_left_alone_witness :
  length [0; 1; 0] = length [zero; S754_zero true; zero] ∧
  forallb is_zero [zero; S754_zero true; zero] = true ∧
  (compute_blocked sanitize_size_factors.fresh sanitize_size_factors.is_invalid
     [zero; S754_zero true; zero] [0; 1; 0] None default_options).1.2
  = [zero; S754_zero true; zero].
Proof.
  split; [reflexivity|]. split; [reflexivity|].
  apply (blocked_zeros_left_alone sanitize_size_factors.fresh
           sanitize_size_factors.is_invalid [zero; S754_zero true; zero]
           [0; 1; 0] None default_options eq_refl eq_refl).
Defined.

(** Block 1 holds -1.0 only, which is rejected and left as it is. *)
Lemma per_block_without_contribution_witness :
  length [0; 1; 0] = length [Lit.one; Lit.minus_one; Lit.three] ∧
  1 < length [Lit.one; Lit.minus_one; Lit.three] ∧
  block_contributing sanitize_size_factors.fresh sanitize_size_factors.is_invalid
    {| block_mode := PER_BLOCK; ignore_invalid := true |} None
    ([0; 1; 0] !!! 1) [0; 1; 0] [Lit.one; Lit.minus_one; Lit.three] = [] ∧
  (compute_blocked sanitize_size_factors.fresh sanitize_size_factors.is_invalid
     [Lit.one; Lit.minus_one; Lit.three] [0; 1; 0] None
     {| block_mode := PER_BLOCK; ignore_invalid := true |}).1.2 !!! 1
  = [Lit.one; Lit.minus_one; Lit.three] !!! 1.
Proof.
  assert (Hi : 1 < length [Lit.one; Lit.minus_one; Lit.three])
    by repeat constructor.
  split; [reflexivity|]. split; [exact Hi|]. split; [reflexivity|].
  apply (per_block_without_contribution sanitize_size_factors.fresh
           sanitize_size_factors.is_invalid
           [Lit.one; Lit.minus_one; Lit.three] [0; 1; 0] None true 1
           eq_refl Hi eq_refl).
Defined.

(** The sink after [1.0, -1.0], blocked and global. *)
Lemma blocked_sink_is_global_sink_witness :
  length [0; 1] = length [Lit.one; Lit.minus_one] ∧
  ignore_invalid default_options
  = ignore_invalid {| block_mode := PER_BLOCK; ignore_invalid := true |} ∧
  (compute_blocked sanitize_size_factors.fresh sanitize_size_factors.is_invalid
     [Lit.one; Lit.minus_one] [0; 1] (Some sanitize_size_factors.fresh)
     default_options).2
  = (compute sanitize_size_factors.fresh sanitize_size_factors.is_invalid
       [Lit.one; Lit.minus_one] (Some sanitize_size_factors.fresh)
       {| block_mode := PER_BLOCK; ignore_invalid := true |}).2.
Proof.
  split; [reflexivity|]. split; [reflexivity|].
  apply (blocked_sink_is_global_sink sanitize_size_factors.fresh
           sanitize_size_factors.is_invalid [Lit.one; Lit.minus_one] [0; 1]
           (Some sanitize_size_factors.fresh) default_options
           {| block_mode := PER_BLOCK; ignore_invalid := true |}
           eq_refl eq_refl).
Defined.

(** [1.0, 3.0] has no invalid value. *)
Lemma filtering_clean_array_witness :
  length [0; 1] = length [Lit.one; Lit.three] ∧
  (∀ v, In v (verdicts sanitize_size_factors.is_invalid
                (default sanitize_size_factors.fresh None)
                [Lit.one; Lit.three]) → v = false) ∧
  (compute sanitize_size_factors.fresh sanitize_size_factors.is_invalid
     [Lit.one; Lit.three] None
     {| block_mode := LOWEST; ignore_invalid := true |}).1
  = (compute sanitize_size_factors.fresh sanitize_size_factors.is_invalid
       [Lit.one; Lit.three] None
       {| block_mode := LOWEST; ignore_invalid := false |}).1.
Proof.
  assert (H : ∀ v, In v (verdicts sanitize_size_factors.is_invalid
                           (default sanitize_size_factors.fresh None)
                           [Lit.one; Lit.three]) → v = false).
  { intros v Hv. vm_compute in Hv. destruct Hv as [<-|[<-|[]]]; reflexivity. }
  split; [reflexivity|]. split; [exact H|].
  apply (proj1 (filtering_clean_array sanitize_size_factors.fresh
                  sanitize_size_factors.is_invalid [Lit.one; Lit.three] [0; 1]
                  None LOWEST eq_refl H)).
Defined.

(** The filtered mean of [1.0, -1.0, NaN, 3.0] is not negative. *)
Lemma filtered_means_nonneg_witness :
  accepts_positive_finite sanitize_size_factors.is_invalid ∧
  length [0; 1; 0; 1] = length [Lit.one; Lit.minus_one; nan; Lit.three] ∧
  (Z.of_nat (length [Lit.one; Lit.minus_one; nan; Lit.three]) < 2 ^ 64)%Z ∧
  let m := (compute_mean sanitize_size_factors.fresh
              sanitize_size_factors.is_invalid
              [Lit.one; Lit.minus_one; nan; Lit.three] None default_options).1 in
  is_zero m || is_pos m = true.
Proof.
  split; [exact sanitize_accepts_positive_finite|].
  split; [reflexivity|]. split; [reflexivity|].
  apply (proj1 (filtered_means_nonneg sanitize_size_factors.fresh
                  sanitize_size_factors.is_invalid
                  [Lit.one; Lit.minus_one; nan; Lit.three] [0; 1; 0; 1] None
                  LOWEST sanitize_accepts_positive_finite eq_refl eq_refl)).
Defined.

(** [-1.0, 2.0] in two blocks with filtering: the means are 0 and 2.0. *)
Lemma lowest_filtered_witness :
  accepts_positive_finite sanitize_size_factors.is_invalid ∧
  length [0; 1] = length [Lit.minus_one; Lit.two] ∧
  (Z.of_nat (length [Lit.minus_one; Lit.two]) < 2 ^ 64)%Z ∧
  let r := compute_blocked sanitize_size_factors.fresh
             sanitize_size_factors.is_invalid [Lit.minus_one; Lit.two] [0; 1]
             None {| block_mode := LOWEST; ignore_invalid := true |} in
  lowest_rescaling r.1.1 [Lit.minus_one; Lit.two] r.1.2.
Proof.
  split; [exact sanitize_accepts_positive_finite|].
  split; [reflexivity|]. split; [reflexivity|].
  apply (lowest_filtered sanitize_size_factors.fresh
           sanitize_size_factors.is_invalid [Lit.minus_one; Lit.two] [0; 1] None
           sanitize_accepts_positive_finite eq_refl eq_refl).
Defined.
